(** * emote_pipeline: the animation compression search, verified

    A shallow embedding of [apng_to_gif_alpha_test.py] (frame-rate reducer,
    palette builder, transparency overwrite, size-constrained search) and of
    [image_resize.py] (resize), with the properties the specification states
    about them.

    Python integers are unbounded, so they are [Z]; Python floats are the
    kernel's binary64 floats, and a duration is either.  Lists are [list]; an
    exception is a value of [exn] carried by [result].  Pillow and pathlib are
    not part of the repository: Pillow enters through the interface [Pillow]
    below, pathlib's [with_suffix] is written out. *)

From Corelib Require PrimFloat SpecFloat FloatOps FloatAxioms.
From Stdlib Require Import Strings.Byte Strings.Ascii.
From stdpp Require Import base numbers list strings pretty countable gmap.

Local Open Scope Z_scope.

(** ** Exceptions and results *)

(** The exceptions the two scripts can end with.  The ones the scripts raise
    themselves carry the source line in their name. *)
Inductive exn : Type :=
  | ValueError_unsupported_format          (* line 21 *)
  | RuntimeError_no_frames                 (* line 31 *)
  | ValueError_resolution_below_minimum    (* line 113 *)
  | RuntimeError_could_not_compress        (* line 142 *)
  | IndexError                             (* list index out of range *)
  | ValueError_zero_step                   (* slice step / range() arg 3 is zero *)
  | OverflowError                          (* an int too large for a float *)
  | ValueError_path (msg : string)         (* raised by pathlib *)
  | FileNotFoundError                      (* unlink / replace / stat *)
  | PillowError (msg : string).            (* raised inside Pillow *)

(** The error names of the specification's taxonomy, and the exception each
    one is in the code (an exception raised inside Pillow while a candidate
    is built and encoded counts as its EncodingFailure).  [IndexError] and
    the others have no name there. *)
Inductive SpecError : Type :=
  | UnsupportedFormat
  | EmptyAnimation
  | ResolutionTooLow
  | EncodingFailure
  | CompressionBudgetUnreachable.

Definition taxonomy (e : exn) : option SpecError :=
  match e with
  | ValueError_unsupported_format => Some UnsupportedFormat
  | RuntimeError_no_frames => Some EmptyAnimation
  | ValueError_resolution_below_minimum => Some ResolutionTooLow
  | RuntimeError_could_not_compress => Some CompressionBudgetUnreachable
  | PillowError _ => Some EncodingFailure
  | _ => None
  end.

Inductive result (A : Type) : Type :=
  | Ok (a : A)
  | Raise (e : exn).
Arguments Ok {A} a.
Arguments Raise {A} e.

#[global] Instance result_ret : MRet result := @Ok.
#[global] Instance result_bind : MBind result := fun A B k r =>
  match r with
  | Ok a => k a
  | Raise e => Raise e
  end.

(** ** Python's list primitives *)

Module Py.

(** A Python number, as a duration is one: an [int] or a [float].  Pillow's
    PNG reader stores the duration of an APNG frame as a float
    ([delay_num / delay_den * 1000]); the default of line 28 is the int 40. *)
Inductive num : Type :=
  | Int (z : Z)
  | Float (f : PrimFloat.float).

(** The least magnitude that rounds, to nearest and ties to even, to
    [2 ** 1024], which is no float: the largest float is
    [2 ** 1024 - 2 ** 971]. *)
Definition float_limit : Z := 2 ^ 1024 - 2 ^ 970.

(** The float nearest to [z], ties to even. *)
Definition nearest (z : Z) : PrimFloat.float :=
  FloatOps.SF2Prim
    (SpecFloat.binary_normalize FloatOps.prec FloatOps.emax z 0 false).

(** [float(z)]: the float nearest to [z]; OverflowError (int too large to
    convert to float) when there is none. *)
Definition to_float (z : Z) : result PrimFloat.float :=
  if float_limit <=? Z.abs z then Raise OverflowError else Ok (nearest z).

(** [x + y]: exact on two ints; with a float on either side the int is
    converted first and the floats are added as IEEE 754 has it. *)
Definition add (x y : num) : result num :=
  match x, y with
  | Int a, Int b => Ok (Int (a + b))
  | Int a, Float g => f ← to_float a; Ok (Float (PrimFloat.add f g))
  | Float f, Int b => g ← to_float b; Ok (Float (PrimFloat.add f g))
  | Float f, Float g => Ok (Float (PrimFloat.add f g))
  end.

(** [sum(l)]: [0 + l[0] + l[1] + ...], added one by one from the left, as
    CPython does up to version 3.11 (later versions compensate the rounding
    of a sum of floats). *)
Definition sum (l : list num) : result num :=
  fold_left (fun acc x => total ← acc; add total x) l (Ok (Int 0)).

(** Whether [a / b] on two ints raises OverflowError (integer division
    result too large for a float): the quotient is rounded to nearest, so
    it does from [float_limit] on in magnitude. *)
Definition truediv_overflows (a b : Z) : bool :=
  float_limit * Z.abs b <=? Z.abs a.

(** [len(l)]. *)
Definition len {A} (l : list A) : Z := Z.of_nat (length l).

(** Number of elements of [range(start, stop, step)] for a non-zero step. *)
Definition range_len (start stop step : Z) : Z :=
  if 0 <? step then
    (if start <? stop then (stop - start - 1) / step + 1 else 0)
  else if step <? 0 then
    (if stop <? start then (start - stop - 1) / (- step) + 1 else 0)
  else 0.

(** [range(start, stop, step)]. *)
Definition range (start stop step : Z) : result (list Z) :=
  if step =? 0 then Raise ValueError_zero_step
  else Ok (map (fun i : nat => start + Z.of_nat i * step)
               (seq 0 (Z.to_nat (range_len start stop step)))).

(** A slice bound brought into [0, len]: negative bounds count from the end. *)
Definition clamp (n i : Z) : Z :=
  if i <? 0 then Z.max 0 (i + n) else Z.min i n.

(** [l[lo:hi]]. *)
Definition slice {A} (l : list A) (lo hi : Z) : list A :=
  let a := clamp (len l) lo in
  let b := clamp (len l) hi in
  take (Z.to_nat (b - a)) (drop (Z.to_nat a) l).

(** [l[::step]]: the elements at [range(0, len, step)] for a positive step,
    at [range(len - 1, -1, step)] for a negative one. *)
Definition stride {A} (l : list A) (step : Z) : result (list A) :=
  let indices : result (list Z) :=
    if 0 <? step then range 0 (len l) step
    else range (len l - 1) (-1) step in
  idx ← indices;
  Ok (omap (M := list) (fun i : Z => l !! Z.to_nat i) idx).

(** [l[0]]. *)
Definition head {A} (l : list A) : result A :=
  match l with
  | [] => Raise IndexError
  | x :: _ => Ok x
  end.

End Py.

(** ** Frame-rate reducer *)

(** [reduce_frames(frames, durations, factor)], lines 44-47. *)
Definition reduce_frames {F} (frames : list F) (durations : list Py.num)
    (factor : Z) : result (list F * list Py.num) :=
  reduced_frames ← Py.stride frames factor;
  starts ← Py.range 0 (Py.len durations) factor;
  reduced_durations ←
    mapM (fun i => Py.sum (Py.slice durations i (i + factor))) starts;
  Ok (reduced_frames, reduced_durations).

(** [ceil(n / k)] for a positive [k]. *)
Definition ceil_div (n k : Z) : Z := (n + k - 1) / k.

(** The sum of a list of integers, for the statements about durations that
    are ints. *)
Definition total (l : list Z) : Z := fold_left Z.add l 0.

(** The frames [reduce_frames] keeps for a skip factor [k] of at least 1,
    and the [i]-th group of durations it adds up. *)
Definition kept_frames {F} (frames : list F) (k : Z) : list F :=
  omap (M := list) (fun i : nat => frames !! (i * Z.to_nat k)%nat)
       (seq 0 (Z.to_nat (ceil_div (Py.len frames) k))).

Definition group (durations : list Py.num) (k : Z) (i : nat) : list Py.num :=
  take (Z.to_nat k) (drop (i * Z.to_nat k) durations).

(** What the ints of a list of numbers weigh together: as long as this is
    below [Py.float_limit], no sum of a part of the list has an int too
    large for a float in it. *)
Definition int_mass (l : list Py.num) : Z :=
  total (omap (fun d => match d with
                        | Py.Int z => Some (Z.abs z)
                        | Py.Float _ => None
                        end) l).


(** ** Images *)

Abbreviation RGBA := (Z * Z * Z * Z)%type (only parsing).
Abbreviation RGB := (Z * Z * Z)%type (only parsing).
Abbreviation bytes := (list byte) (only parsing).

(** A frame is a Pillow image in mode RGBA: [load_animation] converts every
    frame to that mode (line 27), so [save_as_gif] takes the first branch of
    its test at line 54 and leaves the frame as it is. *)
Record Frame : Type := {
  frame_size : Z * Z;
  frame_data : list RGBA
}.

(** An image in mode RGB. *)
Record RGBImage : Type := {
  rgb_size : Z * Z;
  rgb_data : list RGB
}.

(** An image in mode P: a colour table and one index per pixel. *)
Record PImage : Type := {
  p_size : Z * Z;
  p_palette : list RGB;
  p_data : list Z
}.

(** [r, g, b, a = frame.split(); rgb = Image.merge("RGB", (r, g, b))]. *)
Definition merge_rgb (frame : Frame) : RGBImage :=
  {| rgb_size := frame_size frame;
     rgb_data := map (fun '(r, g, b, _) => (r, g, b)) (frame_data frame) |}.

(** [list(a.getdata())] for the alpha band [a] of [frame.split()]. *)
Definition alpha_data (frame : Frame) : list Z :=
  map (fun '(_, _, _, a) => a) (frame_data frame).

(** What an 8-bit pixel keeps of the value it is given: Pillow clips it to
    [0, 255]. *)
Definition clip8 (v : Z) : Z := Z.max 0 (Z.min 255 v).

(** [p_frame.putdata(p_data)]: the pixel indices are replaced, the colour
    table stays.  The image is in mode P, so every index is stored in eight
    bits. *)
Definition putdata (p_frame : PImage) (data : list Z) : PImage :=
  {| p_size := p_size p_frame;
     p_palette := p_palette p_frame;
     p_data := clip8 <$> data |}.

(** The keyword arguments of [Image.save], lines 92-100. *)
Record SaveKwargs : Type := {
  save_all : bool;
  append_images : list PImage;
  duration : list Py.num;
  kw_loop : Z;
  disposal : Z;
  transparency : Z;
  optimize : bool
}.

(** What a call of [Image.save] does: it writes the encoded file, or it
    raises, and then it may have left something at the path. *)
Inductive SaveResult : Type :=
  | Saved (content : bytes)
  | SaveFailed (e : exn) (residue : option bytes).

(** An indexed image fits the image it was made from: same size, one index
    per pixel, every index inside the colour table. *)
Definition indexes (img : RGBImage) (p : PImage) : Prop :=
  p_size p = rgb_size img
  ∧ length (p_data p) = length (rgb_data img)
  ∧ Forall (fun ix => 0 ≤ ix < Py.len (p_palette p)) (p_data p).

(** ** The Pillow interface

    The four Pillow calls of the scripts, with what the scripts rely on:
    - [Image.quantize(colors=c, method=MEDIANCUT)] takes [1 <= c <= 256] and
      returns an image whose colour table has at most [c] colours;
    - [Image.quantize(palette=p)] maps onto the colour table it is given;
    - [Image.save] (the GIF encoder) may fail;
    - [Image.resize(size, LANCZOS)] takes positive dimensions and returns an
      image of that size. *)
Class Pillow : Type := {
  quantize_mediancut : RGBImage → Z → result PImage;
  quantize_palette : RGBImage → list RGB → result PImage;
  gif_encode : PImage → SaveKwargs → SaveResult;
  resize_lanczos : Frame → Z * Z → result Frame;

  mediancut_accepts img c :
    1 ≤ c ≤ 256 → ∃ p, quantize_mediancut img c = Ok p;
  mediancut_indexes img c p :
    quantize_mediancut img c = Ok p →
    Py.len (p_palette p) ≤ c ∧ indexes img p;
  palette_accepts img pal :
    pal ≠ [] → ∃ p, quantize_palette img pal = Ok p;
  palette_indexes img pal p :
    quantize_palette img pal = Ok p → p_palette p = pal ∧ indexes img p;
  resize_accepts frame w h :
    0 < w → 0 < h → ∃ frame', resize_lanczos frame (w, h) = Ok frame';
  resize_size frame target frame' :
    resize_lanczos frame target = Ok frame' → frame_size frame' = target
}.

(** ** The animation model (both scripts declare the same dataclass) *)

Record Animation : Type := {
  frames : list Frame;
  durations : list Py.num;
  loop : Z;
  size : Z * Z
}.

(** What [Image.open] hands to [load_animation]: the container format, the
    [loop] entry of [img.info], and the frames [ImageSequence.Iterator]
    yields.  Each comes with its conversion to RGBA and with the [duration]
    entries of [frame.info] and of [img.info] as they are when the frame is
    reached. *)
Record SeqFrame : Type := {
  converted : Frame;
  frame_info_duration : option Py.num;
  img_info_duration : option Py.num
}.

Record OpenedImage : Type := {
  format : string;
  info_loop : option Z;
  sequence : list SeqFrame
}.

(** [load_animation], lines 17-41, after [Image.open]. *)
Definition load_animation (img : OpenedImage) : result Animation :=
  if decide (format img ≠ "PNG") then Raise ValueError_unsupported_format
  else
    let frames := map converted (sequence img) in
    let durations :=
      map (fun f => default (default (Py.Int 40) (img_info_duration f))
                            (frame_info_duration f)) (sequence img) in
    if decide (frames = []) then Raise RuntimeError_no_frames
    else
      first ← Py.head frames;
      Ok {| frames := frames;
            durations := durations;
            loop := default 0 (info_loop img);
            size := frame_size first |}.

(** ** Paths (pathlib) *)

(** A path as pathlib parses it: the leading components and the final one. *)
Record Path : Type := {
  parents : list string;
  name : string
}.

#[global] Instance Path_eq_dec : EqDecision Path.
Proof. solve_decision. Defined.

#[global] Instance Path_countable : Countable Path :=
  inj_countable' (fun p => (parents p, name p))
                 (fun '(d, n) => {| parents := d; name := n |})
                 (fun p => match p with Build_Path _ _ => eq_refl end).

Module Str.

(** [c in s]. *)
Fixpoint contains (c : ascii) (s : string) : bool :=
  match s with
  | EmptyString => false
  | String c' s' => if decide (c' = c) then true else contains c s'
  end.

(** [s[:i], s[i:]] for [i = s.rfind(".")], when there is a dot. *)
Fixpoint rsplit_dot (s : string) : option (string * string) :=
  match s with
  | EmptyString => None
  | String c s' =>
      match rsplit_dot s' with
      | Some (before, ext) => Some (String c before, ext)
      | None => if decide (c = "."%char) then Some (EmptyString, s) else None
      end
  end.

End Str.

(** [PurePath.suffix] with the part in front of it: for [i = name.rfind(".")]
    the suffix is [name[i:]] when [0 < i < len(name) - 1], that is when
    something stands before the dot and after it, and empty otherwise. *)
Definition split_suffix (name : string) : string * string :=
  match Str.rsplit_dot name with
  | Some (String c before, String dot (String c' ext)) =>
      (String c before, String dot (String c' ext))
  | _ => (name, EmptyString)
  end.

(** [PurePath.with_suffix(suffix)]. *)
Definition with_suffix (p : Path) (suffix : string) : result Path :=
  if Str.contains "/" suffix then Raise (ValueError_path "Invalid suffix")
  else if match suffix with
          | EmptyString => false
          | String c rest =>
              negb (bool_decide (c = "."%char)) || bool_decide (rest = EmptyString)
          end
  then Raise (ValueError_path "Invalid suffix")
  else if decide (name p = EmptyString)
  then Raise (ValueError_path "has an empty name")
  else Ok {| parents := parents p;
             name := fst (split_suffix (name p)) +:+ suffix |}.

(** [f".temp{skip_factor}f{colors}c.gif"], line 116. *)
Definition temp_suffix (skip_factor colors : Z) : string :=
  ".temp" +:+ pretty skip_factor +:+ "f" +:+ pretty colors +:+ "c.gif".

(** The path line 116 computes for an output path that has a name (see
    [with_suffix_temp]). *)
Definition temp_path (output_path : Path) (state : Z * Z) : Path :=
  {| parents := parents output_path;
     name := fst (split_suffix (name output_path))
             +:+ temp_suffix state.1 state.2 |}.

(** The characters of [str(z)]. *)
Definition numeral (c : ascii) : Prop :=
  c = "-"%char ∨ ∃ x, c = pretty_N_char x.

(** ** Storage and the effects of the search *)

(** The files on storage, and a record of the search iterations entered, each
    with its [(skip_factor, colors)].  The record is not in the source: it is
    what the statements about evaluated candidates are made of. *)
Record World : Type := {
  fs : gmap Path bytes;
  entered : list (Z * Z)
}.

Definition with_fs (w : World) (m : gmap Path bytes) : World :=
  {| fs := m; entered := entered w |}.

(** A computation that reads and writes the world and may raise.  The world
    a raise leaves is the one reached so far. *)
Definition M (A : Type) : Type := World → result A * World.

#[global] Instance M_ret : MRet M := fun A a w => (Ok a, w).
#[global] Instance M_bind : MBind M := fun A B k m w =>
  match m w with
  | (Ok a, w') => k a w'
  | (Raise e, w') => (Raise e, w')
  end.

Definition lift {A} (r : result A) : M A := fun w => (r, w).

Definition enter (skip_factor colors : Z) : M unit := fun w =>
  (Ok (), {| fs := fs w; entered := entered w ++ [(skip_factor, colors)] |}).

(** [path.stat().st_size]. *)
Definition stat_size (path : Path) : M Z := fun w =>
  match fs w !! path with
  | Some content => (Ok (Py.len content), w)
  | None => (Raise FileNotFoundError, w)
  end.

(** [path.unlink()]. *)
Definition unlink (path : Path) : M unit := fun w =>
  match fs w !! path with
  | Some _ => (Ok (), with_fs w (delete path (fs w)))
  | None => (Raise FileNotFoundError, w)
  end.

(** [src.replace(dst)]. *)
Definition replace (src dst : Path) : M unit := fun w =>
  match fs w !! src with
  | Some content => (Ok (), with_fs w (<[dst := content]> (delete src (fs w))))
  | None => (Raise FileNotFoundError, w)
  end.

Section Scripts.

Context {pillow : Pillow}.

(** [image.save(path, **kwargs)]. *)
Definition image_save (image : PImage) (path : Path) (kwargs : SaveKwargs)
  : M unit := fun w =>
  match gif_encode image kwargs with
  | Saved content => (Ok (), with_fs w (<[path := content]> (fs w)))
  | SaveFailed e None => (Raise e, w)
  | SaveFailed e (Some partial) =>
      (Raise e, with_fs w (<[path := partial]> (fs w)))
  end.

(** ** Palette builder and transparency overwrite *)

(** Lines 85-87: [for j, alpha_val in enumerate(a_data)], here from
    position [j] on.  [p_data[j] = ...] raises outside the list. *)
Fixpoint overwrite_transparent (alpha_threshold sentinel : Z)
    (j : nat) (a_data : list Z) (p_data : list Z) : result (list Z) :=
  match a_data with
  | [] => Ok p_data
  | alpha_val :: rest =>
      if alpha_val <? alpha_threshold then
        if decide (j < length p_data)%nat
        then overwrite_transparent alpha_threshold sentinel (S j) rest
               (<[j := sentinel]> p_data)
        else Raise IndexError
      else overwrite_transparent alpha_threshold sentinel (S j) rest p_data
  end.

(** Lines 82-89 for one frame and its quantized image [q]: what the loop
    below does to each frame, named for the statements about it. *)
Definition overwritten (colors alpha_threshold : Z) (frame : Frame)
    (q : PImage) : result PImage :=
  p_data ← overwrite_transparent alpha_threshold (colors - 1) 0
             (alpha_data frame) (p_data q);
  Ok (putdata q p_data).

(** Lines 70-90: [for i, frame in enumerate(processed_frames)], here from
    position [i] on.  At [i = 0] the name [p_frame] is bound to the object
    [palette_img] itself, so [putdata] changes [palette_img]; the later
    frames read the colour table of that changed object. *)
Fixpoint index_frames (colors alpha_threshold : Z) (i : nat)
    (processed_frames : list Frame) (palette_img : PImage)
    (pal_frames : list PImage) : result (list PImage) :=
  match processed_frames with
  | [] => Ok pal_frames
  | frame :: rest =>
      let rgb := merge_rgb frame in
      let a_data := alpha_data frame in
      p_frame ← (if decide (i = 0%nat) then Ok palette_img
                 else quantize_palette rgb (p_palette palette_img));
      p_data ← overwrite_transparent alpha_threshold (colors - 1) 0
                 a_data (p_data p_frame);
      let p_frame := putdata p_frame p_data in
      let palette_img := if decide (i = 0%nat) then p_frame else palette_img in
      index_frames colors alpha_threshold (S i) rest palette_img
        (pal_frames ++ [p_frame])
  end.

(** [save_as_gif], lines 51-90: the paletted frames it hands to the
    encoder. *)
Definition paletted_frames (animation : Animation) (colors alpha_threshold : Z)
  : result (list PImage) :=
  let processed_frames := frames animation in
  let all_pixels := map merge_rgb processed_frames in
  first ← Py.head all_pixels;
  palette_img ← quantize_mediancut first (colors - 1);
  index_frames colors alpha_threshold 0 processed_frames palette_img [].

(** [save_as_gif(animation, output_path, colors, alpha_threshold)],
    lines 50-104. *)
Definition save_as_gif (animation : Animation) (output_path : Path)
    (colors alpha_threshold : Z) : M Z :=
  pal_frames ← lift (paletted_frames animation colors alpha_threshold);
  let save_kwargs :=
    {| save_all := true;
       append_images := drop 1 pal_frames;
       duration := durations animation;
       kw_loop := loop animation;
       disposal := 2;
       transparency := colors - 1;
       optimize := false |} in
  first ← lift (Py.head pal_frames);
  _ ← image_save first output_path save_kwargs;
  stat_size output_path.

(** ** Size-constrained search *)

Section Search.

Variables (animation : Animation) (output_path : Path).
Variables (target_size_bytes alpha_threshold : Z).

(** The body of the [while] loop, lines 116-140, up to the update of the
    two variables: [Some path] when it returns, [None] when it falls
    through to the update. *)
Definition iteration (skip_factor colors : Z) : M (option Path) :=
  _ ← enter skip_factor colors;
  temp_path ← lift (with_suffix output_path (temp_suffix skip_factor colors));
  '(processed_frames, processed_durations) ← lift
    (if 1 <? skip_factor
     then reduce_frames (frames animation) (durations animation) skip_factor
     else Ok (frames animation, durations animation));
  first ← lift (Py.head processed_frames);
  let compressed_anim :=
    {| frames := processed_frames;
       durations := processed_durations;
       loop := loop animation;
       size := frame_size first |} in
  size ← save_as_gif compressed_anim temp_path colors alpha_threshold;
  if size <=? target_size_bytes then
    _ ← replace temp_path output_path;
    mret (Some output_path)
  else
    _ ← unlink temp_path;
    mret None.

(** Line 142: the message of the RuntimeError has the budget in megabytes,
    [target_size_bytes / (1024 * 1024)] as a float, in it.  The division
    comes first, so a budget too large for it ends the search with its
    OverflowError. *)
Definition budget_unreachable : exn :=
  if Py.truediv_overflows target_size_bytes (1024 * 1024) then OverflowError
  else RuntimeError_could_not_compress.

(** The [while] loop, lines 115-142, run for at most [fuel] iterations:
    [None] when the fuel runs out before the loop ends. *)
Fixpoint search (fuel : nat) (skip_factor colors : Z) (w : World)
  : option (result Path * World) :=
  if (skip_factor <=? Py.len (frames animation)) && (64 <=? colors) then
    match fuel with
    | O => None
    | S fuel =>
        match iteration skip_factor colors w with
        | (Ok (Some path), w') => Some (Ok path, w')
        | (Ok None, w') =>
            search fuel (skip_factor + 1) (Z.max 64 (colors - 32)) w'
        | (Raise e, w') => Some (Raise e, w')
        end
    end
  else Some (Raise budget_unreachable, w).

(** [compress_to_target_size], lines 107-142.  The loop gets one unit of
    fuel per frame, which is enough (see [search_refines]). *)
Definition compress_to_target_size (min_resolution : Z) (w : World)
  : option (result Path * World) :=
  let skip_factor := 1 in
  let colors := 256 in
  if (fst (size animation) <? min_resolution)
     || (snd (size animation) <? min_resolution)
  then Some (Raise ValueError_resolution_below_minimum, w)
  else search (length (frames animation)) skip_factor colors w.

(** *** The search as the specification words it

    The schedule is the sequence of states [(1 + i, max(64, 256 - 32 i))];
    each state has one candidate animation and one encoding attempt; the
    search goes through the schedule in order and stops at the first
    attempt that fits the budget, at the first that fails, or at the end
    of the schedule. *)

Definition schedule (i : nat) : Z * Z :=
  (1 + Z.of_nat i, Z.max 64 (256 - 32 * Z.of_nat i)).

(** Lines 118-129: the candidate animation of a skip factor. *)
Definition candidate (skip_factor : Z) : result Animation :=
  '(processed_frames, processed_durations) ←
    (if 1 <? skip_factor
     then reduce_frames (frames animation) (durations animation) skip_factor
     else Ok (frames animation, durations animation));
  first ← Py.head processed_frames;
  Ok {| frames := processed_frames;
        durations := processed_durations;
        loop := loop animation;
        size := frame_size first |}.

(** What the encoder does with the candidate of a state: the outcome of
    the [Image.save] call of [save_as_gif], or the exception raised
    before that call is reached. *)
Definition attempt (state : Z * Z) : SaveResult :=
  match candidate state.1 with
  | Raise e => SaveFailed e None
  | Ok compressed_anim =>
      match paletted_frames compressed_anim state.2 alpha_threshold with
      | Raise e => SaveFailed e None
      | Ok [] => SaveFailed IndexError None
      | Ok (first :: rest) =>
          gif_encode first
            {| save_all := true;
               append_images := rest;
               duration := durations compressed_anim;
               kw_loop := loop compressed_anim;
               disposal := 2;
               transparency := state.2 - 1;
               optimize := false |}
      end
  end.

(** A candidate that was encoded and is over the budget. *)
Definition over_budget (i : nat) : Prop :=
  ∃ content,
    attempt (schedule i) = Saved content
    ∧ target_size_bytes < Py.len content.

(** How the search ends. *)
Inductive Ending : Type :=
  | Exhausted
  | Promoted (i : nat) (content : bytes)
  | Aborted (i : nat) (e : exn) (residue : option bytes).

(** The schedule steps rejected before the search ends, and its ending. *)
Fixpoint first_stop (steps : list nat) : list nat * Ending :=
  match steps with
  | [] => ([], Exhausted)
  | i :: steps =>
      match attempt (schedule i) with
      | Saved content =>
          if Py.len content <=? target_size_bytes
          then ([], Promoted i content)
          else let '(rejected, ending) := first_stop steps in
               (i :: rejected, ending)
      | SaveFailed e residue => ([], Aborted i e residue)
      end
  end.

(** Storage without the files at [paths]. *)
Definition purge (paths : list Path) (m : gmap Path bytes)
  : gmap Path bytes := foldr delete m paths.

(** The result and the world after a search that rejected the steps
    [rejected] and ended with [ending]. *)
Definition settle (rejected : list nat) (ending : Ending) (w : World)
  : result Path * World :=
  let temp i := temp_path output_path (schedule i) in
  let base := purge (temp <$> rejected) (fs w) in
  let log := entered w ++ (schedule <$> rejected) in
  match ending with
  | Exhausted =>
      (Raise budget_unreachable, {| fs := base; entered := log |})
  | Promoted i content =>
      (Ok output_path,
       {| fs := <[output_path := content]> (delete (temp i) base);
          entered := log ++ [schedule i] |})
  | Aborted i e None =>
      (Raise e, {| fs := base; entered := log ++ [schedule i] |})
  | Aborted i e (Some partial) =>
      (Raise e,
       {| fs := <[temp i := partial]> base;
          entered := log ++ [schedule i] |})
  end.

(** How a run of [compress_to_target_size] ends, once the resolution
    test has passed: [k] candidates are rejected, then the schedule is
    over, or candidate [k] fits, or the attempt at [k] raises. *)
Inductive Run (k : nat) : Ending → Prop :=
  | run_exhausted :
      k = length (frames animation) → Run k Exhausted
  | run_promoted content :
      (k < length (frames animation))%nat →
      attempt (schedule k) = Saved content →
      Py.len content ≤ target_size_bytes →
      Run k (Promoted k content)
  | run_aborted e residue :
      (k < length (frames animation))%nat →
      attempt (schedule k) = SaveFailed e residue →
      Run k (Aborted k e residue).

End Search.

(** ** Resize *)

(** [resize_animation], lines 45-56 of [image_resize.py]. *)
Definition resize_animation (anim : Animation) (target_size : Z * Z)
  : result Animation :=
  resized ← mapM (fun frame => resize_lanczos frame target_size) (frames anim);
  Ok {| frames := resized;
        durations := durations anim;
        loop := loop anim;
        size := target_size |}.

End Scripts.

(** ** Saving an APNG ([image_resize.py]) *)

(** The keyword arguments of the [Image.save] call of [save_animation]
    ([format="PNG"] apart). *)
Record PngKwargs : Type := {
  png_save_all : bool;
  png_append_images : list Frame;
  png_duration : list Py.num;
  png_loop : Z;
  png_disposal : Z
}.

(** How [save_animation] ends: with the ValueError of line 60 ([first, *rest]
    has nothing to unpack), which [exn] does not list, or past it. *)
Inductive SaveOutcome : Type :=
  | UnpackError
  | Past (r : result unit) (w : World).

Section Apng.

Context {pillow : Pillow}.

(** Pillow's APNG encoder. *)
Variable png_encode : Frame → PngKwargs → SaveResult.

(** [save_animation], lines 59-70 of [image_resize.py]. *)
Definition save_animation (anim : Animation) (output_path : Path) (w : World)
  : SaveOutcome :=
  match frames anim with
  | [] => UnpackError
  | first :: rest =>
      match png_encode first
              {| png_save_all := true;
                 png_append_images := rest;
                 png_duration := durations anim;
                 png_loop := loop anim;
                 png_disposal := 2 |} with
      | Saved content =>
          Past (Ok ()) (with_fs w (<[output_path := content]> (fs w)))
      | SaveFailed e None => Past (Raise e) w
      | SaveFailed e (Some partial) =>
          Past (Raise e) (with_fs w (<[output_path := partial]> (fs w)))
      end
  end.

(** [main], lines 113-115 of [image_resize.py], after [Image.open]: load,
    resize to a square, save. *)
Definition resize_and_save (img : OpenedImage) (size : Z) (output_path : Path)
    (w : World) : SaveOutcome :=
  match load_animation img with
  | Raise e => Past (Raise e) w
  | Ok anim =>
      match resize_animation anim (size, size) with
      | Raise e => Past (Raise e) w
      | Ok resized => save_animation resized output_path w
      end
  end.

End Apng.

(** ** A reference implementation of the Pillow interface

    A small quantizer, resampler and encoder that meet the interface, for
    runs on concrete animations: grey palettes, indices taken from the red
    channel, an encoding as long as the number of indices plus the
    transparency index. *)

Definition toy_palette (c : Z) : list RGB :=
  (fun i : nat => (Z.of_nat i, Z.of_nat i, Z.of_nat i)) <$> seq 0 (Z.to_nat c).

Definition toy_mediancut (img : RGBImage) (c : Z) : result PImage :=
  if decide (1 ≤ c ≤ 256) then
    Ok {| p_size := rgb_size img;
          p_palette := toy_palette c;
          p_data := (fun '(r, _, _) => r `mod` c) <$> rgb_data img |}
  else Raise (PillowError "bad number of colors").

Definition toy_remap (img : RGBImage) (pal : list RGB) : result PImage :=
  if decide (pal = []) then Raise (PillowError "empty palette")
  else
    Ok {| p_size := rgb_size img;
          p_palette := pal;
          p_data := (fun '(r, _, _) => r `mod` Py.len pal) <$> rgb_data img |}.

Definition toy_resize (frame : Frame) (target : Z * Z) : result Frame :=
  if decide (0 < target.1 ∧ 0 < target.2) then
    Ok {| frame_size := target;
          frame_data := replicate (Z.to_nat (target.1 * target.2)) (0, 0, 0, 0) |}
  else Raise (PillowError "height and width must be > 0").

Definition toy_encode (first : PImage) (kwargs : SaveKwargs) : SaveResult :=
  Saved (replicate
           (length (p_data first)
            + length (append_images kwargs ≫= p_data)
            + Z.to_nat (transparency kwargs))%nat
           x00).

(** An encoder that fails after it has started to write. *)
Definition failing_encode (first : PImage) (kwargs : SaveKwargs) : SaveResult :=
  SaveFailed (PillowError "cannot write") (Some [x47; x49; x46]).

Definition toy_pillow (encode : PImage → SaveKwargs → SaveResult) : Pillow.
Proof.
  refine {| quantize_mediancut := toy_mediancut;
            quantize_palette := toy_remap;
            gif_encode := encode;
            resize_lanczos := toy_resize |}.
  - intros img c Hc. unfold toy_mediancut.
    rewrite decide_True by done. by eexists.
  - intros img c p. unfold toy_mediancut.
    destruct (decide (1 ≤ c ≤ 256)) as [Hc|]; [|discriminate].
    intros [= <-]. unfold indexes, toy_palette, Py.len. cbn.
    rewrite !length_fmap, length_seq. split; [lia|].
    split; [done|]. split; [done|].
    apply Forall_fmap, Forall_forall. intros [[r g] b] _. cbn.
    pose proof (Z.mod_pos_bound r c). lia.
  - intros img pal Hpal. unfold toy_remap.
    rewrite decide_False by done. by eexists.
  - intros img pal p. unfold toy_remap.
    destruct (decide (pal = [])) as [|Hpal]; [discriminate|].
    intros [= <-]. unfold indexes, Py.len. cbn.
    rewrite !length_fmap. split; [done|]. split; [done|]. split; [done|].
    apply Forall_fmap, Forall_forall. intros [[r g] b] _. cbn.
    assert (0 < Z.of_nat (length pal)) by (destruct pal; [done|cbn; lia]).
    pose proof (Z.mod_pos_bound r (Z.of_nat (length pal))). lia.
  - intros frame w h Hw Hh. unfold toy_resize.
    rewrite decide_True by done. by eexists.
  - intros frame target frame'. unfold toy_resize.
    destruct (decide _); [|discriminate]. by intros [= <-].
Defined.

(** A four-frame animation on a 2 x 2 canvas, an output path, and storage
    with nothing on it. *)
Definition sample_frame (v : Z) : Frame :=
  {| frame_size := (2, 2);
     frame_data := [(v, 0, 0, 255); (v + 1, 0, 0, 5);
                    (v + 2, 0, 0, 255); (v + 3, 0, 0, 10)] |}.

Definition sample_animation : Animation :=
  {| frames := sample_frame <$> [10; 20; 30; 40];
     durations := Py.Int <$> [40; 40; 40; 40];
     loop := 0;
     size := (2, 2) |}.

Definition no_frames : Animation :=
  {| frames := []; durations := []; loop := 0; size := (2, 2) |}.

Definition sample_output : Path :=
  {| parents := ["out"]; name := "emote.gif" |}.

Definition empty_world : World := {| fs := ∅; entered := [] |}.

(** The duration Pillow's PNG reader gives a frame of an APNG that plays at
    30 frames per second, [float(1) / float(30) * 1000], and the durations
    of seven such frames. *)
Definition duration_30fps : Py.num :=
  Py.Float (PrimFloat.mul (PrimFloat.div (Py.nearest 1) (Py.nearest 30))
                          (Py.nearest 1000)).

Definition durations_30fps : list Py.num := replicate 7 duration_30fps.


(** An APNG encoder, an opened two-frame PNG, a one-frame animation, an
    input path, and the paletted frames of [sample_animation] for a palette
    size of 4 at the thresholds 10 and 11. *)
Definition toy_png_encode (first : Frame) (kwargs : PngKwargs) : SaveResult :=
  Saved (replicate
           (length (frame_data first)
            + length (png_append_images kwargs ≫= frame_data))%nat
           x00).

Definition sample_image : OpenedImage :=
  {| format := "PNG";
     info_loop := None;
     sequence := [ {| converted := sample_frame 10;
                      frame_info_duration := Some duration_30fps;
                      img_info_duration := Some duration_30fps |};
                   {| converted := sample_frame 20;
                      frame_info_duration := None;
                      img_info_duration := Some duration_30fps |} ] |}.

Definition single_frame : Animation :=
  {| frames := [sample_frame 10]; durations := [Py.Int 40];
     loop := 0; size := (2, 2) |}.

Definition sample_input : Path :=
  {| parents := ["in"]; name := "emote.png" |}.

Definition sample_paletted (t : Z) : list PImage :=
  (fun data => {| p_size := (2, 2);
                  p_palette := [(0, 0, 0); (1, 1, 1); (2, 2, 2)];
                  p_data := data |})
  <$> (if t <=? 10
       then [[1; 3; 0; 1]; [2; 3; 1; 2]; [0; 3; 2; 0]; [1; 3; 0; 1]]
       else [[1; 3; 0; 3]; [2; 3; 1; 3]; [0; 3; 2; 3]; [1; 3; 0; 3]]).

(** * Properties *)

(** ** The result monad *)

Lemma bind_Ok_inv {A B} (r : result A) (k : A → result B) (b : B) :
  r ≫= k = Ok b → ∃ a, r = Ok a ∧ k a = Ok b.
Proof. destruct r as [a|e]; [eauto | discriminate]. Qed.

Lemma mapM_Ok_inv {A B} (f : A → result B) (l : list A) (k : list B) :
  mapM f l = Ok k → Forall2 (fun x y => f x = Ok y) l k.
Proof.
  revert k. induction l as [|x l IH]; intros k Hk.
  - injection Hk as <-. constructor.
  - cbn [mapM] in Hk.
    apply bind_Ok_inv in Hk as (y & Hy & Hk).
    apply bind_Ok_inv in Hk as (k' & Hk' & Hk).
    injection Hk as <-. constructor; auto.
Qed.

Lemma mapM_Ok_intro {A B} (f : A → result B) (l : list A) :
  (∀ x, x ∈ l → ∃ y, f x = Ok y) → ∃ k, mapM f l = Ok k.
Proof.
  induction l as [|x l IH]; intros Hall.
  - by exists [].
  - destruct (Hall x) as [y Hy]; [by left|].
    destruct IH as [k Hk]; [intros; apply Hall; by right|].
    exists (y :: k). cbn [mapM]. by rewrite Hy, Hk.
Qed.

(** ** Python's list primitives *)

Section PyFacts.

Lemma fold_add_shift (l : list Z) (a : Z) :
  fold_left Z.add l a = a + total l.
Proof.
  unfold total. revert a.
  induction l as [|x l IH]; intros a; cbn [fold_left]; [lia|].
  rewrite (IH (a + x)), (IH (0 + x)). lia.
Qed.

Lemma sum_cons (x : Z) (l : list Z) : total (x :: l) = x + total l.
Proof. unfold total at 1. simpl. apply fold_add_shift. Qed.

Lemma sum_app (l1 l2 : list Z) : total (l1 ++ l2) = total l1 + total l2.
Proof.
  induction l1 as [|x l1 IH]; simpl; [reflexivity|].
  rewrite !sum_cons, IH. lia.
Qed.

(** [sum] on ints is the exact sum. *)
Lemma sum_from_ints (zs : list Z) (a : Z) :
  fold_left (fun acc x => total ← acc; Py.add total x)
            (Py.Int <$> zs) (Ok (Py.Int a))
  = Ok (Py.Int (fold_left Z.add zs a)).
Proof.
  revert a. induction zs as [|z zs IH]; intros a; [done|].
  cbn [fmap list_fmap fold_left]. apply IH.
Qed.

Lemma sum_ints (zs : list Z) : Py.sum (Py.Int <$> zs) = Ok (Py.Int (total zs)).
Proof. apply sum_from_ints. Qed.

(** A sum that has raised stays so, and what a sum raises is the
    OverflowError of an int that has no float. *)
Lemma sum_from_raise (l : list Py.num) (e : exn) :
  fold_left (fun acc x => total ← acc; Py.add total x) l (Raise e) = Raise e.
Proof. induction l as [|x l IH]; [done|]. cbn [fold_left]. apply IH. Qed.

Lemma add_raise (x y : Py.num) (e : exn) :
  Py.add x y = Raise e → e = OverflowError.
Proof.
  destruct x as [a|f], y as [b|g]; cbn [Py.add]; try discriminate;
    unfold Py.to_float; destruct (_ <=? _); cbn; congruence.
Qed.

Lemma sum_raise (l : list Py.num) (e : exn) :
  Py.sum l = Raise e → e = OverflowError.
Proof.
  unfold Py.sum. generalize (Py.Int 0). induction l as [|x l IH]; intros acc.
  - discriminate.
  - cbn [fold_left mbind result_bind].
    destruct (Py.add acc x) as [acc'|e'] eqn:Hadd.
    + apply IH.
    + rewrite sum_from_raise. intros [= <-]. by eapply add_raise.
Qed.

(** The weight of the ints of a list. *)
Lemma int_mass_cons (d : Py.num) (l : list Py.num) :
  int_mass (d :: l)
  = match d with Py.Int z => Z.abs z | Py.Float _ => 0 end + int_mass l.
Proof.
  unfold int_mass. destruct d as [z|f]; cbn [omap list_omap].
  - apply sum_cons.
  - lia.
Qed.

Lemma int_mass_nonneg (l : list Py.num) : 0 ≤ int_mass l.
Proof.
  induction l as [|d l IH]; [done|]. rewrite int_mass_cons.
  destruct d; lia.
Qed.

Lemma int_mass_app (l1 l2 : list Py.num) :
  int_mass (l1 ++ l2) = int_mass l1 + int_mass l2.
Proof.
  induction l1 as [|d l1 IH]; [done|].
  cbn [app]. rewrite !int_mass_cons, IH. lia.
Qed.

Lemma int_mass_part (l : list Py.num) (n m : nat) :
  int_mass (take n (drop m l)) ≤ int_mass l.
Proof.
  rewrite <- (take_drop m l) at 2.
  rewrite <- (take_drop n (drop m l)) at 2.
  rewrite !int_mass_app.
  pose proof (int_mass_nonneg (take m l)).
  pose proof (int_mass_nonneg (drop n (drop m l))). lia.
Qed.

(** A sum returns when the ints met on the way weigh less than the least
    number that has no float. *)
Lemma sum_from_light (l : list Py.num) (acc : Py.num) :
  match acc with
  | Py.Int a => Z.abs a + int_mass l < Py.float_limit
  | Py.Float _ => int_mass l < Py.float_limit
  end →
  ∃ t, fold_left (fun acc x => total ← acc; Py.add total x) l (Ok acc) = Ok t.
Proof.
  revert acc. induction l as [|d l IH]; intros acc Hacc.
  - by eexists.
  - cbn [fold_left mbind result_bind]. rewrite int_mass_cons in Hacc.
    pose proof (int_mass_nonneg l) as Hpos.
    destruct acc as [a|f], d as [z|g]; cbn [Py.add].
    + apply IH. lia.
    + unfold Py.to_float. destruct (Z.leb_spec Py.float_limit (Z.abs a));
        [lia|]. cbn [mbind result_bind]. apply IH. lia.
    + unfold Py.to_float. destruct (Z.leb_spec Py.float_limit (Z.abs z));
        [lia|]. cbn [mbind result_bind]. apply IH. lia.
    + apply IH. lia.
Qed.

Lemma sum_light (l : list Py.num) :
  int_mass l < Py.float_limit → ∃ t, Py.sum l = Ok t.
Proof. intros Hlight. apply sum_from_light. cbn [Z.abs]. lia. Qed.

(** [ceil_div n k] is the ceiling of [n / k]: the least [q] with
    [n <= q * k]. *)
Lemma ceil_div_spec (n k : Z) :
  0 < k → (ceil_div n k - 1) * k < n ≤ ceil_div n k * k.
Proof.
  intros Hk. unfold ceil_div.
  pose proof (Z.div_mod (n + k - 1) k ltac:(lia)) as Hdm.
  pose proof (Z.mod_pos_bound (n + k - 1) k Hk). nia.
Qed.

Lemma ceil_div_unique (n k q : Z) :
  0 < k → (q - 1) * k < n ≤ q * k → ceil_div n k = q.
Proof.
  intros Hk Hq. pose proof (ceil_div_spec n k Hk). nia.
Qed.

Lemma range_len_ceil (n k : Z) :
  0 ≤ n → 0 < k → Py.range_len 0 n k = ceil_div n k.
Proof.
  intros Hn Hk. unfold Py.range_len.
  destruct (Z.ltb_spec 0 k); [|lia].
  symmetry. apply ceil_div_unique; [done|].
  destruct (Z.ltb_spec 0 n).
  - pose proof (Z.div_mod (n - 0 - 1) k ltac:(lia)).
    pose proof (Z.mod_pos_bound (n - 0 - 1) k Hk). nia.
  - lia.
Qed.

(** The start positions of [range(0, n, k)] for a positive step. *)
Lemma range_from_zero (n k : Z) :
  0 ≤ n → 0 < k →
  Py.range 0 n k
  = Ok (map (fun i : nat => Z.of_nat i * k)
            (seq 0 (Z.to_nat (ceil_div n k)))).
Proof.
  intros Hn Hk. unfold Py.range.
  destruct (Z.eqb_spec k 0); [lia|].
  rewrite range_len_ceil by done. reflexivity.
Qed.

(** A slice that starts inside or after the list, as [take] and [drop]. *)
Lemma slice_take_drop {A} (l : list A) (i k : nat) :
  Py.slice l (Z.of_nat i) (Z.of_nat i + Z.of_nat k) = take k (drop i l).
Proof.
  unfold Py.slice, Py.clamp, Py.len.
  destruct (Z.ltb_spec (Z.of_nat i) 0); [lia|].
  destruct (Z.ltb_spec (Z.of_nat i + Z.of_nat k) 0); [lia|].
  destruct (decide (length l ≤ i)%nat) as [Hge|Hlt].
  - rewrite !drop_ge by lia. by rewrite !take_nil.
  - replace (Z.to_nat (Z.of_nat i `min` Z.of_nat (length l))) with i by lia.
    destruct (decide (i + k ≤ length l)%nat).
    + f_equal. lia.
    + rewrite (take_ge _ k) by (rewrite length_drop; lia).
      apply take_ge. rewrite length_drop. lia.
Qed.

(** Cutting a list into [c] consecutive groups of [k] loses nothing. *)
Lemma groups_sum (k : nat) (c : nat) (l : list Z) :
  (length l ≤ c * k)%nat →
  total (map (fun i : nat => total (take k (drop (i * k) l))) (seq 0 c))
  = total l.
Proof.
  revert l. induction c as [|c IH]; intros l Hlen.
  - destruct l; [reflexivity | simpl in Hlen; lia].
  - cbn [seq map]. rewrite sum_cons, <- seq_shift, map_map.
    rewrite drop_0.
    rewrite (map_ext _ (fun i : nat =>
               total (take k (drop (i * k) (drop k l))))).
    + rewrite IH by (rewrite length_drop; lia).
      rewrite <- sum_app. by rewrite take_drop.
    + intros i. rewrite drop_drop. do 3 f_equal; lia.
Qed.

(** The elements a positive stride keeps. *)
Lemma stride_seq {A} (l : list A) (k c : nat) :
  (∀ i, i < c → i * k < length l)%nat →
  let kept := omap (M := list) (fun i : nat => l !! (i * k)%nat) (seq 0 c) in
  length kept = c ∧ ∀ j, (j < c)%nat → kept !! j = l !! (j * k)%nat.
Proof.
  induction c as [|c IH]; intros Hin kept; subst kept.
  - split; [reflexivity | intros; lia].
  - rewrite seq_S, omap_app. cbn [omap list_omap].
    destruct (IH ltac:(intros; apply Hin; lia)) as [Hlen Hlook].
    destruct (lookup_lt_is_Some_2 l (c * k)) as [x Hx]; [apply Hin; lia|].
    cbn [plus]. rewrite Hx. rewrite length_app, Hlen. split; [simpl; lia|].
    intros j Hj. destruct (decide (j = c)) as [->|].
    + rewrite lookup_app_r by lia. rewrite Hlen, Nat.sub_diag. by rewrite Hx.
    + rewrite lookup_app_l by lia. apply Hlook. lia.
Qed.

End PyFacts.

(** ** Frame-rate reducer *)

Section Reducer.

Context {F : Type}.
Implicit Types (frames : list F) (durations : list Py.num) (k : Z).

Lemma mapM_fmap {A B C} (f : B → result C) (g : A → B) (l : list A) :
  mapM f (g <$> l) = mapM (f ∘ g) l.
Proof.
  induction l as [|x l IH]; [done|].
  cbn [fmap list_fmap mapM]. by rewrite <- IH.
Qed.

Lemma mapM_ext_in {A B} (f g : A → result B) (l : list A) :
  (∀ x, x ∈ l → f x = g x) → mapM f l = mapM g l.
Proof.
  induction l as [|x l IH]; intros Hfg; [done|].
  cbn [mapM]. rewrite (Hfg x) by (by left).
  rewrite IH; [done|]. intros y Hy. apply Hfg. by right.
Qed.

Lemma mapM_Ok_fmap {A B} (f : A → result B) (g : A → B) (l : list A) :
  (∀ x, x ∈ l → f x = Ok (g x)) → mapM f l = Ok (g <$> l).
Proof.
  induction l as [|x l IH]; intros Hfg; [done|].
  cbn [mapM fmap list_fmap]. rewrite (Hfg x) by (by left).
  rewrite IH; [done|]. intros y Hy. apply Hfg. by right.
Qed.

Lemma mapM_Raise_in {A B} (f : A → result B) (l : list A) (e : exn) :
  mapM f l = Raise e → ∃ x, x ∈ l ∧ f x = Raise e.
Proof.
  induction l as [|x l IH]; [discriminate|]. cbn [mapM].
  destruct (f x) as [y|e'] eqn:Hx.
  - cbn [mbind result_bind]. destruct (mapM f l) as [k|e'] eqn:Hl;
      [discriminate|].
    cbn [mbind result_bind]. intros [= ->].
    destruct (IH eq_refl) as (x' & Hin & Hraise).
    exists x'. split; [by right|done].
  - cbn [mbind result_bind]. intros [= ->]. exists x. split; [by left|done].
Qed.

(** What [reduce_frames] does for a skip factor of at least 1. *)
Lemma reduce_frames_pos frames durations k :
  1 ≤ k →
  reduce_frames frames durations k
  = (reduced_durations ←
       mapM (fun i : nat => Py.sum (group durations k i))
            (seq 0 (Z.to_nat (ceil_div (Py.len durations) k)));
     Ok (kept_frames frames k, reduced_durations)).
Proof.
  intros Hk. unfold reduce_frames, Py.stride, kept_frames, group.
  destruct (Z.ltb_spec 0 k); [|lia].
  rewrite !range_from_zero by (unfold Py.len; lia).
  cbn [mbind result_bind].
  change (map ?f ?l) with (f <$> l). rewrite mapM_fmap.
  rewrite (mapM_ext_in _
             (fun i : nat => Py.sum (take (Z.to_nat k)
                                       (drop (i * Z.to_nat k) durations)))).
  - destruct (mapM _ _) as [reduced_durations|e]; [|reflexivity].
    cbn [mbind result_bind]. do 2 f_equal.
    induction (seq 0 _) as [|i rest IH]; [reflexivity|].
    cbn [fmap list_fmap omap list_omap]. rewrite <- IH.
    by replace (Z.to_nat (Z.of_nat i * k)) with (i * Z.to_nat k)%nat by lia.
  - intros i _. cbn [compose]. rewrite <- slice_take_drop.
    do 2 f_equal; lia.
Qed.

(** With durations that are ints every group is added exactly. *)
Lemma reduce_frames_ints frames (zs : list Z) k :
  1 ≤ k →
  reduce_frames frames (Py.Int <$> zs) k
  = Ok (kept_frames frames k,
        Py.Int <$> map (fun i : nat =>
                          total (take (Z.to_nat k) (drop (i * Z.to_nat k) zs)))
                       (seq 0 (Z.to_nat (ceil_div (Py.len zs) k)))).
Proof.
  intros Hk. rewrite reduce_frames_pos by done.
  unfold Py.len. rewrite length_fmap. fold (Py.len zs).
  rewrite (mapM_Ok_fmap _
             (fun i : nat =>
                Py.Int (total (take (Z.to_nat k) (drop (i * Z.to_nat k) zs))))).
  - cbn [mbind result_bind]. do 2 f_equal.
    change (map ?f ?l) with (f <$> l). by rewrite <- list_fmap_compose.
  - intros i _. unfold group. rewrite <- fmap_drop, <- fmap_take.
    apply sum_ints.
Qed.

(** The groups of durations of a reduction either all have a sum, or the
    first that has none ends the call with its OverflowError. *)
Lemma reduce_frames_outcome frames durations k :
  1 ≤ k →
  match reduce_frames frames durations k with
  | Ok (reduced_frames, reduced_durations) =>
      reduced_frames = kept_frames frames k
      ∧ Py.len reduced_durations = ceil_div (Py.len durations) k
  | Raise e => e = OverflowError
  end.
Proof.
  intros Hk. rewrite reduce_frames_pos by done.
  destruct (mapM _ _) as [reduced_durations|e] eqn:Hsums;
    cbn [mbind result_bind].
  - split; [done|]. apply mapM_Ok_inv, Forall2_length in Hsums.
    rewrite length_seq in Hsums. unfold Py.len at 1. rewrite <- Hsums.
    pose proof (ceil_div_spec (Py.len durations) k ltac:(lia)).
    unfold Py.len in *. nia.
  - apply mapM_Raise_in in Hsums as (i & _ & Hsum). by eapply sum_raise.
Qed.

(** A reduction returns when the ints among the durations weigh less than
    the least number that has no float. *)
Lemma reduce_frames_light frames durations k :
  1 ≤ k →
  int_mass durations < Py.float_limit →
  ∃ reduced_durations,
    reduce_frames frames durations k
    = Ok (kept_frames frames k, reduced_durations).
Proof.
  intros Hk Hlight. rewrite reduce_frames_pos by done.
  destruct (mapM_Ok_intro
              (fun i : nat => Py.sum (group durations k i))
              (seq 0 (Z.to_nat (ceil_div (Py.len durations) k))))
    as [reduced_durations ->].
  { intros i _. apply sum_light. unfold group.
    pose proof (int_mass_part durations (Z.to_nat k) (i * Z.to_nat k)). lia. }
  by eexists.
Qed.

Lemma groups_cover (n k : Z) :
  0 ≤ n → 1 ≤ k → (Z.to_nat n ≤ Z.to_nat (ceil_div n k) * Z.to_nat k)%nat.
Proof.
  intros Hn Hk. pose proof (ceil_div_spec n k ltac:(lia)). nia.
Qed.

(** The frames kept: [ceil(n / k)] of them, the [j]-th from position
    [j * k]. *)
Lemma kept_frames_spec frames k :
  1 ≤ k →
  Py.len (kept_frames frames k) = ceil_div (Py.len frames) k
  ∧ ∀ j : nat, kept_frames frames k !! j = frames !! (j * Z.to_nat k)%nat.
Proof.
  intros Hk. unfold kept_frames.
  pose proof (ceil_div_spec (Py.len frames) k ltac:(lia)) as Hceil.
  set (c := ceil_div (Py.len frames) k) in *.
  assert (0 ≤ c) as Hc0 by (unfold Py.len in *; nia).
  destruct (stride_seq frames (Z.to_nat k) (Z.to_nat c)) as [Hcount Hkept].
  { intros i Hi. unfold Py.len in *. nia. }
  split; [unfold Py.len; lia|].
  intros j. destruct (decide (j < Z.to_nat c)%nat) as [Hj|Hj].
  - by apply Hkept.
  - rewrite !lookup_ge_None_2; [done| |].
    + unfold Py.len in *. nia.
    + lia.
Qed.


(** C6: for [n] frames and a skip factor [k >= 1] the reducer returns
    [ceil(n / k)] frames, the [j]-th of them being the frame at position
    [j * k] of the input, and, the animation having one duration per frame,
    [ceil(n / k)] durations.  The one way not to return is the
    OverflowError of a sum of durations in which an int too large for a
    float meets a float: it does not happen when the durations are all
    ints, nor when the ints among them weigh less than [2 ** 1024 - 2 ** 970]
    together, as they do when all durations are floats. *)
Theorem reduce_frames_count frames durations k :
  1 ≤ k →
  length durations = length frames →
  ∃ reduced_frames,
    Py.len reduced_frames = ceil_div (Py.len frames) k
    ∧ (∀ j : nat, reduced_frames !! j = frames !! (j * Z.to_nat k)%nat)
    ∧ match reduce_frames frames durations k with
      | Ok (reduced_frames', reduced_durations) =>
          reduced_frames' = reduced_frames
          ∧ Py.len reduced_durations = ceil_div (Py.len frames) k
      | Raise e =>
          e = OverflowError
          ∧ Py.float_limit ≤ int_mass durations
          ∧ ∀ zs : list Z, durations ≠ Py.Int <$> zs
      end.
Proof.
  intros Hk Hlen. exists (kept_frames frames k).
  destruct (kept_frames_spec frames k Hk) as [Hcount Hkept].
  split; [done|]. split; [done|].
  pose proof (reduce_frames_outcome frames durations k Hk) as Hout.
  destruct (reduce_frames frames durations k)
    as [[reduced_frames' reduced_durations]|e] eqn:Hreduce.
  - destruct Hout as [-> Hdur]. split; [done|].
    rewrite Hdur. unfold Py.len. by rewrite Hlen.
  - split; [done|]. split.
    + destruct (Z.le_gt_cases Py.float_limit (int_mass durations)) as [|Hlight];
        [done|].
      destruct (reduce_frames_light frames durations k Hk ltac:(lia))
        as [reduced_durations Hok].
      congruence.
    + intros zs ->. rewrite reduce_frames_ints in Hreduce by done.
      discriminate.
Qed.

End Reducer.


(** ** Palette builder and transparency overwrite *)

Section Palette.

Context {pillow : Pillow}.
Implicit Types (frame : Frame) (q : PImage) (N t : Z).

Lemma putdata_palette q data : p_palette (putdata q data) = p_palette q.
Proof. reflexivity. Qed.

Lemma alpha_data_lookup frame (j : nat) r g b a :
  frame_data frame !! j = Some (r, g, b, a) → alpha_data frame !! j = Some a.
Proof.
  intros Hj. unfold alpha_data.
  change (map ?f ?l) with (f <$> l). by rewrite list_lookup_fmap, Hj.
Qed.

Lemma length_alpha_data frame :
  length (alpha_data frame) = length (frame_data frame).
Proof. unfold alpha_data. apply length_map. Qed.

Lemma length_merge_rgb frame :
  length (rgb_data (merge_rgb frame)) = length (frame_data frame).
Proof. unfold merge_rgb. simpl. apply length_map. Qed.

(** The inner loop, lines 85-87: it ends normally when the alpha band is
    not longer than the index list, changes no length, and sets exactly the
    positions whose alpha is below the threshold. *)
Lemma overwrite_transparent_spec t sentinel a_data :
  ∀ (j : nat) (p_data : list Z),
    (j + length a_data ≤ length p_data)%nat →
    ∃ out,
      overwrite_transparent t sentinel j a_data p_data = Ok out
      ∧ length out = length p_data
      ∧ (∀ m, (m < j)%nat → out !! m = p_data !! m)
      ∧ (∀ m a, a_data !! m = Some a →
           out !! (j + m)%nat
           = if a <? t then Some sentinel else p_data !! (j + m)%nat).
Proof.
  induction a_data as [|a rest IH]; intros j p_data Hlen.
  - exists p_data. repeat split; try done.
  - cbn [overwrite_transparent]. simpl in Hlen.
    destruct (Z.ltb_spec a t) as [Hlt|Hge].
    + destruct (decide (j < length p_data)%nat); [|lia].
      destruct (IH (S j) (<[j := sentinel]> p_data)) as (out & -> & Hl & Hlow & Hhigh).
      { rewrite length_insert. lia. }
      rewrite length_insert in Hl.
      exists out. split; [done|]. split; [done|]. split.
      * intros m Hm. rewrite Hlow by lia. apply list_lookup_insert_ne. lia.
      * intros [|m] a' Ha'; simplify_eq/=.
        -- destruct (Z.ltb_spec a' t); [|lia].
           rewrite Nat.add_0_r, Hlow by lia. apply list_lookup_insert_eq. lia.
        -- replace (j + S m)%nat with (S (j + m)) by lia.
           rewrite (Hhigh _ _ Ha'). destruct (a' <? t); [done|].
           apply list_lookup_insert_ne. lia.
    + destruct (IH (S j) p_data) as (out & -> & Hl & Hlow & Hhigh); [lia|].
      exists out. split; [done|]. split; [done|]. split.
      * intros m Hm. apply Hlow. lia.
      * intros [|m] a' Ha'; simplify_eq/=.
        -- destruct (Z.ltb_spec a' t); [lia|].
           rewrite Nat.add_0_r. apply Hlow. lia.
        -- replace (j + S m)%nat with (S (j + m)) by lia.
           by apply Hhigh.
Qed.

Lemma clip8_id (v : Z) : 0 ≤ v ≤ 255 → clip8 v = v.
Proof. unfold clip8. lia. Qed.

Lemma clip8_range (v : Z) : 0 ≤ clip8 v ≤ 255 ∧ (0 ≤ v → clip8 v ≤ v).
Proof. unfold clip8. lia. Qed.

Lemma overwritten_spec N t frame q :
  indexes (merge_rgb frame) q →
  ∃ p_frame,
    overwritten N t frame q = Ok p_frame
    ∧ p_palette p_frame = p_palette q
    ∧ p_size p_frame = frame_size frame
    ∧ length (p_data p_frame) = length (frame_data frame)
    ∧ ∀ (j : nat) r g b a,
        frame_data frame !! j = Some (r, g, b, a) →
        ∃ old,
          p_data q !! j = Some old
          ∧ 0 ≤ old < Py.len (p_palette q)
          ∧ p_data p_frame !! j
            = Some (clip8 (if a <? t then N - 1 else old)).
Proof.
  intros (Hsize & Hlen & Hrange). rewrite length_merge_rgb in Hlen.
  destruct (overwrite_transparent_spec t (N - 1) (alpha_data frame) 0 (p_data q))
    as (out & Hout & Hl & _ & Hset).
  { rewrite length_alpha_data. lia. }
  exists (putdata q out). unfold overwritten. rewrite Hout.
  split; [done|]. split; [done|]. split; [exact Hsize|].
  split; [cbn [putdata p_data]; rewrite length_fmap; lia|].
  intros j r g b a Hj.
  destruct (lookup_lt_is_Some_2 (p_data q) j) as [old Hold].
  { apply lookup_lt_Some in Hj. lia. }
  exists old. split; [done|]. split.
  { by eapply (Forall_lookup_1 _ _ _ _ Hrange). }
  pose proof (Hset j a (alpha_data_lookup _ _ _ _ _ _ Hj)) as Hout_j.
  cbn [putdata p_data plus] in Hout_j |- *.
  rewrite list_lookup_fmap, Hout_j.
  destruct (a <? t); [done|]. by rewrite Hold.
Qed.

(** The loop over the frames after the first, lines 70-90: every frame is
    quantized against the colour table of [palette_img] and overwritten. *)
Lemma index_frames_later N t :
  ∀ processed_frames (i : nat) palette_img pal_frames,
    (0 < i)%nat →
    index_frames N t i processed_frames palette_img pal_frames
    = (rest ← mapM (fun frame =>
                      q ← quantize_palette (merge_rgb frame)
                            (p_palette palette_img);
                      overwritten N t frame q) processed_frames;
       Ok (pal_frames ++ rest)).
Proof.
  unfold overwritten.
  induction processed_frames as [|frame rest IH];
    intros i palette_img pal_frames Hi.
  - simpl. by rewrite app_nil_r.
  - cbn [index_frames mapM].
    destruct (decide (i = 0%nat)); [lia|].
    destruct (quantize_palette _ _) as [q|e]; [|reflexivity].
    cbn [mbind result_bind].
    destruct (overwrite_transparent _ _ _ _ _) as [p_data|e]; [|reflexivity].
    cbn [mbind result_bind]. rewrite IH by lia.
    destruct (mapM _ rest) as [rest'|e]; [|reflexivity].
    cbn [mbind result_bind mret result_ret]. by rewrite <- app_assoc.
Qed.

(** [paletted_frames], lines 51-90, in one equation: the colour table comes
    from a median cut of the first frame to [N - 1] colours, the first frame
    keeps the indices of that cut, every later frame is quantized against
    the same colour table. *)
Lemma paletted_frames_eq animation N t :
  paletted_frames animation N t
  = match frames animation with
    | [] => Raise IndexError
    | first :: later =>
        palette_img ← quantize_mediancut (merge_rgb first) (N - 1);
        p_first ← overwritten N t first palette_img;
        rest ← mapM (fun frame =>
                       q ← quantize_palette (merge_rgb frame)
                             (p_palette palette_img);
                       overwritten N t frame q) later;
        Ok (p_first :: rest)
    end.
Proof.
  unfold paletted_frames. destruct (frames animation) as [|first later]; [done|].
  cbn [map Py.head]. cbv [mbind result_bind].
  destruct (quantize_mediancut _ _) as [palette_img|e]; [|reflexivity].
  cbn [index_frames]. destruct (decide (0%nat = 0%nat)) as [_|]; [|lia].
  unfold overwritten. cbv [mbind result_bind].
  destruct (overwrite_transparent _ _ _ _ _) as [p_data|e]; [|reflexivity].
  rewrite index_frames_later by lia. unfold overwritten.
  rewrite putdata_palette. cbv [mbind result_bind].
  by destruct (mapM _ later).
Qed.

(** C4: for a palette size [1 <= N <= 256] and a threshold
    [0 <= t <= 255], in the paletted frames [save_as_gif] hands to the
    encoder every pixel whose source alpha is below [t] has index [N - 1],
    whatever the quantizer gave it, and every pixel whose source alpha is
    at least [t] has an index other than [N - 1]. *)
Theorem transparency_index animation N t p_frames (i j : nat) frame r g b a :
  1 ≤ N ≤ 256 →
  0 ≤ t ≤ 255 →
  paletted_frames animation N t = Ok p_frames →
  frames animation !! i = Some frame →
  frame_data frame !! j = Some (r, g, b, a) →
  ∃ p_frame ix,
    p_frames !! i = Some p_frame
    ∧ p_data p_frame !! j = Some ix
    ∧ (a < t → ix = N - 1)
    ∧ (t ≤ a → ix ≠ N - 1).
Proof.
  intros HN _ Hpal Hi Hj. rewrite paletted_frames_eq in Hpal.
  destruct (frames animation) as [|first later]; [done|].
  apply bind_Ok_inv in Hpal as (palette_img & Hcut & Hpal).
  apply bind_Ok_inv in Hpal as (p_first & Hfirst & Hpal).
  apply bind_Ok_inv in Hpal as (rest & Hrest & Hpal).
  injection Hpal as <-.
  apply mediancut_indexes in Hcut as [Hcolours Hcut].
  assert (∃ q p_frame,
            (p_first :: rest) !! i = Some p_frame
            ∧ indexes (merge_rgb frame) q
            ∧ Py.len (p_palette q) ≤ N - 1
            ∧ overwritten N t frame q = Ok p_frame)
    as (q & p_frame & Hp & Hq & Hcol & Hover).
  { destruct i as [|i]; simplify_eq/=.
    - by exists palette_img, p_first.
    - apply mapM_Ok_inv in Hrest.
      destruct (Forall2_lookup_l _ _ _ _ _ Hrest Hi) as (p_frame & Hp & Hq).
      apply bind_Ok_inv in Hq as (q & Hq & Hover).
      apply palette_indexes in Hq as [Hsame Hq].
      exists q, p_frame. by rewrite Hsame. }
  destruct (overwritten_spec N t frame q Hq)
    as (p_frame' & Hover' & _ & _ & _ & Hdata).
  rewrite Hover in Hover'. injection Hover' as <-.
  destruct (Hdata j r g b a Hj) as (old & _ & Hold & Hnew).
  rewrite clip8_id in Hnew by (destruct (a <? t); lia).
  exists p_frame. eexists. split; [done|]. split; [done|].
  destruct (Z.ltb_spec a t); split; intros; lia.
Qed.

(** C5, as the code has it: for a palette size [2 <= N <= 256] and an
    animation whose first frame has a pixel, the builder succeeds; the
    colour table is the median cut of the RGB channels of the first frame
    to [N - 1] colours, the first frame keeps the indices of that cut, and
    every later frame is quantized against that same colour table. *)
Theorem palette_from_first_frame animation N t first later :
  2 ≤ N ≤ 256 →
  frames animation = first :: later →
  frame_data first ≠ [] →
  ∃ palette_img p_first rest,
    quantize_mediancut (merge_rgb first) (N - 1) = Ok palette_img
    ∧ Py.len (p_palette palette_img) ≤ N - 1
    ∧ overwritten N t first palette_img = Ok p_first
    ∧ paletted_frames animation N t = Ok (p_first :: rest)
    ∧ Forall2 (fun frame p_frame =>
                 ∃ q, quantize_palette (merge_rgb frame)
                        (p_palette palette_img) = Ok q
                      ∧ overwritten N t frame q = Ok p_frame) later rest
    ∧ Forall (fun p_frame => p_palette p_frame = p_palette palette_img)
             (p_first :: rest).
Proof.
  intros HN Hframes Hpixels.
  destruct (mediancut_accepts (merge_rgb first) (N - 1)) as [palette_img Hcut];
    [lia|].
  destruct (mediancut_indexes _ _ _ Hcut) as [Hcolours Hidx].
  destruct (overwritten_spec N t first palette_img Hidx)
    as (p_first & Hfirst & Hpal_first & _).
  assert (p_palette palette_img ≠ []) as Hne.
  { destruct Hidx as (_ & Hlen & Hrange). rewrite length_merge_rgb in Hlen.
    destruct (p_data palette_img) as [|ix data] eqn:Hdata.
    - destruct (frame_data first); [done | discriminate].
    - apply Forall_cons in Hrange as [Hix _]. intros Hnil.
      rewrite Hnil in Hix. unfold Py.len in Hix. simpl in Hix. lia. }
  destruct (mapM_Ok_intro
              (fun frame =>
                 q ← quantize_palette (merge_rgb frame) (p_palette palette_img);
                 overwritten N t frame q) later) as [rest Hrest].
  { intros frame _.
    destruct (palette_accepts (merge_rgb frame) _ Hne) as [q Hq].
    destruct (palette_indexes _ _ _ Hq) as [_ Hqidx].
    destruct (overwritten_spec N t frame q Hqidx) as (p_frame & Hp & _).
    exists p_frame. by rewrite Hq. }
  exists palette_img, p_first, rest.
  split; [done|]. split; [done|]. split; [done|]. split.
  { rewrite paletted_frames_eq, Hframes, Hcut. cbv [mbind result_bind].
    rewrite Hfirst. cbv [mbind result_bind] in Hrest. by rewrite Hrest. }
  apply mapM_Ok_inv in Hrest. split.
  - eapply Forall2_impl; [exact Hrest|]. intros frame p_frame Hp.
    apply bind_Ok_inv in Hp as (q & Hq & Hp). eauto.
  - constructor; [done|].
    apply (Forall2_Forall_r _ _ _ _ Hrest), Forall_forall.
    intros frame _ p_frame Hp.
    apply bind_Ok_inv in Hp as (q & Hq & Hp).
    apply palette_indexes in Hq as [Hsame Hqidx].
    destruct (overwritten_spec N t frame q Hqidx) as (p' & Hp' & Hpal' & _).
    rewrite Hp in Hp'. injection Hp' as <-. by rewrite Hpal', Hsame.
Qed.

End Palette.

(** ** Paths *)

Section Paths.

Lemma append_cons c s1 s2 : String c s1 +:+ s2 = String c (s1 +:+ s2).
Proof. reflexivity. Qed.

Lemma append_empty s : s +:+ EmptyString = s.
Proof. induction s as [|c s IH]; [done|]. by rewrite append_cons, IH. Qed.

Lemma contains_app c s1 s2 :
  Str.contains c (s1 +:+ s2) = Str.contains c s1 || Str.contains c s2.
Proof.
  induction s1 as [|c' s1 IH]; [done|].
  rewrite append_cons. cbn [Str.contains]. by destruct (decide (c' = c)).
Qed.

Lemma pretty_N_char_digit x : pretty_N_char x ≠ "/"%char.
Proof. unfold pretty_N_char. by repeat case_match. Qed.

Lemma pretty_N_go_no_slash x :
  ∀ s, Str.contains "/" s = false → Str.contains "/" (pretty_N_go x s) = false.
Proof.
  induction (N.lt_wf_0 x) as [x _ IH]; intros s Hs.
  assert (x = 0 ∨ 0 < x)%N as [->|Hpos] by lia.
  - by rewrite pretty_N_go_0.
  - rewrite pretty_N_go_step by done. apply IH; [by apply N.div_lt|].
    cbn [Str.contains].
    by destruct (decide (pretty_N_char (x `mod` 10) = "/"%char)) as [Heq|];
      [destruct (pretty_N_char_digit _ Heq)|].
Qed.

Lemma pretty_N_no_slash (x : N) : Str.contains "/" (pretty x) = false.
Proof.
  unfold pretty, pretty_N. destruct (decide (x = 0%N)); [done|].
  by apply pretty_N_go_no_slash.
Qed.

(** [str(z)] has no path separator in it. *)
Lemma pretty_Z_no_slash (z : Z) : Str.contains "/" (pretty z) = false.
Proof.
  destruct z as [|x|x]; [done| |].
  - apply (pretty_N_no_slash (Npos x)).
  - change (pretty (Z.neg x)) with ("-" +:+ pretty (N.pos x)).
    rewrite contains_app. by rewrite (pretty_N_no_slash (Npos x)).
Qed.

Lemma temp_suffix_no_slash skip_factor colors :
  Str.contains "/" (temp_suffix skip_factor colors) = false.
Proof.
  unfold temp_suffix. rewrite !contains_app, !pretty_Z_no_slash. reflexivity.
Qed.

Lemma temp_suffix_shape skip_factor colors :
  ∃ rest, temp_suffix skip_factor colors = String "." rest
          ∧ Str.contains "." rest = true.
Proof.
  exists ("temp" +:+ pretty skip_factor +:+ "f" +:+ pretty colors +:+ "c.gif").
  split; [reflexivity|].
  rewrite !contains_app. cbn. by rewrite !orb_true_r.
Qed.

Lemma rsplit_dot_spec s :
  match Str.rsplit_dot s with
  | Some (before, ext) =>
      s = before +:+ ext
      ∧ ∃ rest, ext = String "." rest ∧ Str.contains "." rest = false
  | None => Str.contains "." s = false
  end.
Proof.
  induction s as [|c s IH]; [done|].
  cbn [Str.rsplit_dot Str.contains].
  destruct (Str.rsplit_dot s) as [[before ext]|].
  - destruct IH as [-> Hext]. by split.
  - destruct (decide (c = "."%char)) as [->|]; [|done].
    split; [done|]. by exists s.
Qed.

(** The suffix pathlib finds is empty or has its only dot in front. *)
Lemma split_suffix_spec name :
  name = fst (split_suffix name) +:+ snd (split_suffix name)
  ∧ (snd (split_suffix name) = EmptyString
     ∨ ∃ rest, snd (split_suffix name) = String "." rest
               ∧ Str.contains "." rest = false).
Proof.
  unfold split_suffix. pose proof (rsplit_dot_spec name) as Hsplit.
  pose proof (eq_sym (append_empty name)) as Hnil.
  destruct (Str.rsplit_dot name) as [[[|c before] ext]|];
    [by split; [|left]| |by split; [|left]].
  destruct ext as [|dot [|c' ext]]; try (by split; [|left]).
  destruct Hsplit as [? Hext]. split; [done|]. by right.
Qed.

(** Line 116 succeeds whenever the output path has a name. *)
Lemma with_suffix_temp output_path skip_factor colors :
  name output_path ≠ EmptyString →
  with_suffix output_path (temp_suffix skip_factor colors)
  = Ok (temp_path output_path (skip_factor, colors)).
Proof.
  intros Hname. unfold with_suffix.
  rewrite temp_suffix_no_slash.
  destruct (temp_suffix_shape skip_factor colors) as (rest & Hshape & Hdot).
  rewrite Hshape at 1.
  rewrite (bool_decide_eq_true_2 ("."%char = "."%char)) by done.
  rewrite bool_decide_eq_false_2 by (intros ->; discriminate).
  cbn [negb orb]. by destruct (decide (name output_path = EmptyString)).
Qed.

(** A temporary path is never the output path. *)
Lemma temp_path_not_output output_path state :
  temp_path output_path state ≠ output_path.
Proof.
  intros Heq. apply (f_equal name) in Heq. cbn [temp_path name] in Heq.
  destruct (split_suffix_spec (name output_path)) as [Hname Hext].
  rewrite Hname in Heq at 2. apply (inj _) in Heq.
  destruct (temp_suffix_shape state.1 state.2) as (rest & Hshape & Hdot).
  rewrite Hshape in Heq.
  destruct Hext as [Hext|(rest' & Hext & Hnodot)]; rewrite Hext in Heq.
  - discriminate.
  - injection Heq as ->. congruence.
Qed.

End Paths.

(** ** Size-constrained search *)

Section SearchFacts.

Context {pillow : Pillow}.
Variables (animation : Animation) (output_path : Path).
Variables (target_size_bytes alpha_threshold : Z).

Local Abbreviation encoding i := (attempt animation alpha_threshold (schedule i)).
Local Abbreviation temp i := (temp_path output_path (schedule i)).
Local Abbreviation rejects i :=
  (over_budget animation target_size_bytes alpha_threshold i).
Local Abbreviation frame_count := (length (frames animation)).

(** One pass through the loop body, lines 116-137. *)
Lemma iteration_eq skip_factor colors w :
  name output_path ≠ EmptyString →
  iteration animation output_path target_size_bytes alpha_threshold
    skip_factor colors w
  = let temp_path := temp_path output_path (skip_factor, colors) in
    let log := entered w ++ [(skip_factor, colors)] in
    match attempt animation alpha_threshold (skip_factor, colors) with
    | Saved content =>
        if Py.len content <=? target_size_bytes
        then (Ok (Some output_path),
              {| fs := <[output_path := content]> (delete temp_path (fs w));
                 entered := log |})
        else (Ok None, {| fs := delete temp_path (fs w); entered := log |})
    | SaveFailed e None => (Raise e, {| fs := fs w; entered := log |})
    | SaveFailed e (Some partial) =>
        (Raise e, {| fs := <[temp_path := partial]> (fs w); entered := log |})
    end.
Proof.
  intros Hname.
  unfold iteration, attempt, candidate, save_as_gif.
  cbv [mbind M_bind lift enter mret M_ret]. rewrite with_suffix_temp by done.
  cbn [fst snd].
  destruct (if 1 <? skip_factor then _ else _) as [[processed_frames processed_durations]|e];
    [|reflexivity].
  cbv [result_bind].
  destruct (Py.head processed_frames) as [first|e]; [|reflexivity].
  destruct (paletted_frames _ _ _) as [[|p_first rest]|e]; try reflexivity.
  cbn [Py.head drop durations loop]. unfold image_save.
  destruct (gif_encode _ _) as [content|e [partial|]]; try reflexivity.
  unfold stat_size, with_fs. cbn [fs entered].
  rewrite lookup_insert_eq.
  destruct (Py.len content <=? target_size_bytes).
  - unfold replace, with_fs. cbn [fs entered]. rewrite lookup_insert_eq.
    by rewrite delete_insert_eq.
  - unfold unlink, with_fs. cbn [fs entered]. rewrite lookup_insert_eq.
    by rewrite delete_insert_eq.
Qed.

Lemma lookup_purge paths (m : gmap Path bytes) p :
  purge paths m !! p = if decide (p ∈ paths) then None else m !! p.
Proof.
  unfold purge. destruct (decide (p ∈ paths)).
  - by apply lookup_foldr_delete.
  - by apply lookup_foldr_delete_not_elem_of.
Qed.

Lemma purge_delete paths (m : gmap Path bytes) p :
  purge paths (delete p m) = delete p (purge paths m).
Proof. unfold purge. symmetry. apply delete_foldr_delete. Qed.

Lemma world_eta w : {| fs := fs w; entered := entered w |} = w.
Proof. by destruct w. Qed.

(** Rejecting step [i] first and settling the rest afterwards. *)
Lemma settle_cons i rejected ending w :
  settle output_path target_size_bytes (i :: rejected) ending w
  = settle output_path target_size_bytes rejected ending
      {| fs := delete (temp i) (fs w);
         entered := entered w ++ [schedule i] |}.
Proof.
  unfold settle. cbn [fs entered fmap list_fmap purge foldr].
  fold (purge (temp_path output_path ∘ schedule <$> rejected) (fs w)).
  rewrite <- !(assoc_L (++)). cbn [app].
  change (list_fmap _ _ ?f ?l) with (f <$> l).
  rewrite purge_delete. reflexivity.
Qed.

(** The loop state after [i] rejected candidates. *)
Lemma schedule_next i :
  schedule (S i) = ((schedule i).1 + 1, Z.max 64 ((schedule i).2 - 32)).
Proof. unfold schedule. cbn [fst snd]. f_equal; lia. Qed.

(** The [while] loop is the scan of the schedule: from the state reached
    after [i] rejected candidates, with fuel for the frames that are left,
    it ends as [first_stop] says and leaves what [settle] says. *)
Lemma search_refines fuel :
  name output_path ≠ EmptyString →
  ∀ (i : nat) w,
    (i ≤ frame_count)%nat →
    (frame_count - i ≤ fuel)%nat →
    search animation output_path target_size_bytes alpha_threshold fuel
      (1 + Z.of_nat i) (Z.max 64 (256 - 32 * Z.of_nat i)) w
    = Some (let '(rejected, ending) :=
              first_stop animation target_size_bytes alpha_threshold
                (seq i (frame_count - i)) in
            settle output_path target_size_bytes rejected ending w).
Proof.
  intros Hname. induction fuel as [|fuel IH]; intros i w Hi Hfuel.
  - replace (frame_count - i)%nat with 0%nat by lia.
    cbn [search seq first_stop]. unfold settle, Py.len.
    destruct (Z.leb_spec (1 + Z.of_nat i) (Z.of_nat frame_count)); [lia|].
    cbn [andb fmap list_fmap purge foldr]. by rewrite app_nil_r, world_eta.
  - cbn [search]. unfold Py.len.
    destruct (Z.leb_spec (1 + Z.of_nat i) (Z.of_nat frame_count)).
    + destruct (Z.leb_spec 64 (Z.max 64 (256 - 32 * Z.of_nat i))); [|lia].
      cbn [andb]. rewrite iteration_eq by done. cbv zeta.
      replace (frame_count - i)%nat with (S (frame_count - S i)) by lia.
      cbn [seq first_stop].
      change (1 + Z.of_nat i, Z.max 64 (256 - 32 * Z.of_nat i))
        with (schedule i).
      destruct (attempt animation alpha_threshold (schedule i))
        as [content|e [partial|]].
      * destruct (Py.len content <=? target_size_bytes).
        -- unfold settle. cbn [fmap list_fmap purge foldr].
           by rewrite app_nil_r.
        -- replace (1 + Z.of_nat i + 1) with (1 + Z.of_nat (S i)) by lia.
           replace (Z.max 64 (Z.max 64 (256 - 32 * Z.of_nat i) - 32))
             with (Z.max 64 (256 - 32 * Z.of_nat (S i))) by lia.
           rewrite IH by lia.
           destruct (first_stop _ _ _ _) as [rejected ending].
           by rewrite settle_cons.
      * unfold settle. cbn [fmap list_fmap purge foldr].
        by rewrite app_nil_r.
      * unfold settle. cbn [fmap list_fmap purge foldr].
        by rewrite app_nil_r.
    + replace (frame_count - i)%nat with 0%nat by lia.
      cbn [andb seq first_stop]. unfold settle.
      cbn [fmap list_fmap purge foldr]. by rewrite app_nil_r, world_eta.
Qed.


(** Without a name in the output path the first iteration stops at line
    116. *)
Lemma search_unnamed_output skip_factor colors w :
  name output_path = EmptyString →
  iteration animation output_path target_size_bytes alpha_threshold
    skip_factor colors w
  = (Raise (ValueError_path "has an empty name"),
     {| fs := fs w; entered := entered w ++ [(skip_factor, colors)] |}).
Proof.
  intros Hname. unfold iteration, with_suffix.
  cbv [mbind M_bind lift enter]. rewrite temp_suffix_no_slash.
  destruct (temp_suffix_shape skip_factor colors) as (rest & -> & Hdot).
  rewrite (bool_decide_eq_true_2 ("."%char = "."%char)) by done.
  rewrite bool_decide_eq_false_2 by (intros ->; discriminate).
  cbn [negb orb]. by rewrite decide_True.
Qed.

(** What [first_stop] returns: the rejected steps are a prefix of the
    schedule, all of them over budget, and the ending tells what was found
    right after them. *)
Lemma first_stop_spec steps :
  ∀ rejected ending,
    first_stop animation target_size_bytes alpha_threshold steps
    = (rejected, ending) →
    Forall (fun i => rejects i) rejected
    ∧ match ending with
      | Exhausted => steps = rejected
      | Promoted i content =>
          (∃ rest, steps = rejected ++ i :: rest)
          ∧ encoding i = Saved content
          ∧ Py.len content ≤ target_size_bytes
      | Aborted i e residue =>
          (∃ rest, steps = rejected ++ i :: rest)
          ∧ encoding i = SaveFailed e residue
      end.
Proof.
  induction steps as [|i steps IH]; intros rejected ending Hstop;
    cbn [first_stop] in Hstop.
  - by injection Hstop as <- <-.
  - destruct (encoding i) as [content|e residue] eqn:Henc.
    + destruct (Z.leb_spec (Py.len content) target_size_bytes).
      * injection Hstop as <- <-. split; [constructor|]. by eauto.
      * destruct (first_stop _ _ _ steps) as [rejected' ending'].
        injection Hstop as <- <-.
        destruct (IH _ _ eq_refl) as [Hrej Hend]. split.
        -- constructor; [|done]. by exists content.
        -- destruct ending' as [|j content'|j e residue].
           ++ by rewrite Hend.
           ++ destruct Hend as ([rest ->] & ? & ?). by eauto.
           ++ destruct Hend as ([rest ->] & ?). by eauto.
    + injection Hstop as <- <-. split; [constructor|]. by eauto.
Qed.

Lemma seq_prefix (n : nat) (l : list nat) i rest :
  seq 0 n = l ++ i :: rest → l = seq 0 i ∧ (i < n)%nat.
Proof.
  intros Hseq.
  assert (i = length l ∧ (length l < n)%nat) as [-> Hlt].
  { assert (seq 0 n !! length l = Some i) as Hi.
    { rewrite Hseq. by rewrite list_lookup_middle. }
    apply lookup_seq in Hi. lia. }
  split; [|done].
  apply (f_equal (take (length l))) in Hseq.
  rewrite take_app_length, take_seq, Nat.min_l in Hseq by lia. done.
Qed.

Lemma compress_run min_resolution w :
  min_resolution ≤ fst (size animation) →
  min_resolution ≤ snd (size animation) →
  name output_path ≠ EmptyString →
  ∃ k ending,
    (∀ j, (j < k)%nat → rejects j)
    ∧ Run animation target_size_bytes alpha_threshold k ending
    ∧ compress_to_target_size animation output_path target_size_bytes
        alpha_threshold min_resolution w
      = Some (settle output_path target_size_bytes (seq 0 k) ending w).
Proof.
  intros Hw Hh Hname. unfold compress_to_target_size.
  destruct (Z.ltb_spec (fst (size animation)) min_resolution); [lia|].
  destruct (Z.ltb_spec (snd (size animation)) min_resolution); [lia|].
  cbn [orb].
  pose proof (search_refines frame_count Hname 0 w ltac:(lia) ltac:(lia))
    as Href.
  change (1 + Z.of_nat 0) with 1 in Href.
  change (Z.max 64 (256 - 32 * Z.of_nat 0)) with 256 in Href.
  rewrite Href, Nat.sub_0_r. clear Href.
  destruct (first_stop _ _ _ _) as [rejected ending] eqn:Hstop.
  apply first_stop_spec in Hstop as [Hrej Hend].
  assert (∀ k, rejected = seq 0 k → ∀ j, (j < k)%nat → rejects j) as Hbelow.
  { intros k -> j Hj. apply (Forall_lookup_1 _ _ j j Hrej).
    by apply lookup_seq. }
  destruct ending as [|i content|i e residue].
  - exists frame_count, Exhausted. rewrite <- Hend.
    eauto using run_exhausted.
  - destruct Hend as ([rest Hsplit] & Henc & Hfit).
    apply seq_prefix in Hsplit as [-> Hi].
    exists i, (Promoted i content). eauto using run_promoted.
  - destruct Hend as ([rest Hsplit] & Henc).
    apply seq_prefix in Hsplit as [-> Hi].
    exists i, (Aborted i e residue). eauto using run_aborted.
Qed.

Lemma entered_next (log : list (Z * Z)) k :
  (log ++ (schedule <$> seq 0 k)) ++ [schedule k]
  = log ++ (schedule <$> seq 0 (S k)).
Proof. by rewrite seq_S, fmap_app, (assoc_L (++)). Qed.

Lemma lookup_temps_purged k (m : gmap Path bytes) i :
  (i < k)%nat → purge (temp_path output_path ∘ schedule <$> seq 0 k) m !! temp i = None.
Proof.
  intros Hi. rewrite lookup_purge, decide_True; [done|].
  apply (list_elem_of_fmap_2 (temp_path output_path ∘ schedule)).
  apply elem_of_seq. lia.
Qed.

Lemma lookup_other_purged k (m : gmap Path bytes) p :
  (∀ i, (i < k)%nat → p ≠ temp i) →
  purge (temp_path output_path ∘ schedule <$> seq 0 k) m !! p = m !! p.
Proof.
  intros Hp. rewrite lookup_purge, decide_False; [done|].
  intros (i & -> & Hi%elem_of_seq)%list_elem_of_fmap.
  by apply (Hp i); [lia|].
Qed.

(** A candidate cannot be both rejected and something else. *)
Lemma rejects_saved i content :
  rejects i → encoding i = Saved content → target_size_bytes < Py.len content.
Proof. intros (content' & Henc & Hover) Henc'. congruence. Qed.

(** What line 142 raises, by the size of the budget: the division by
    [1024 * 1024] overflows from [2 ** 1044 - 2 ** 990] on. *)
Lemma budget_unreachable_cases :
  (Z.abs target_size_bytes < 2 ^ 1044 - 2 ^ 990 →
   budget_unreachable target_size_bytes = RuntimeError_could_not_compress)
  ∧ (2 ^ 1044 - 2 ^ 990 ≤ Z.abs target_size_bytes →
     budget_unreachable target_size_bytes = OverflowError).
Proof.
  unfold budget_unreachable, Py.truediv_overflows.
  assert (Py.float_limit * Z.abs (1024 * 1024) = 2 ^ 1044 - 2 ^ 990) as ->
    by (vm_compute; reflexivity).
  destruct (Z.leb_spec (2 ^ 1044 - 2 ^ 990) (Z.abs target_size_bytes));
    split; intros; first [done|lia].
Qed.


(** C2: the iterations the search enters are, in order, the states
    [(1 + i, max(64, 256 - 32 i))] for [i = 0, 1, ...]: it starts at
    [(1, 256)], and each over-budget attempt adds 1 to the skip factor and
    takes 32 from the palette size down to the floor of 64.  Every entered
    iteration but the last was an over-budget attempt, there are at most
    [frame_count] of them, and when every candidate is over the budget the
    search fails after exactly [frame_count], with what line 142 raises
    (the RuntimeError, or for a budget of [2 ** 1044 - 2 ** 990] or more in
    magnitude the OverflowError of the division in its message). *)
Theorem search_schedule min_resolution w :
  min_resolution ≤ fst (size animation) →
  min_resolution ≤ snd (size animation) →
  name output_path ≠ EmptyString →
  ∃ r w' (steps : nat),
    compress_to_target_size animation output_path target_size_bytes
      alpha_threshold min_resolution w = Some (r, w')
    ∧ (steps ≤ frame_count)%nat
    ∧ entered w'
      = entered w
        ++ ((fun i : nat => (1 + Z.of_nat i, Z.max 64 (256 - 32 * Z.of_nat i)))
            <$> seq 0 steps)
    ∧ (∀ i, (S i < steps)%nat → rejects i)
    ∧ ((∀ i, (i < frame_count)%nat → rejects i) →
         r = Raise (budget_unreachable target_size_bytes)
         ∧ steps = frame_count
         ∧ (Z.abs target_size_bytes < 2 ^ 1044 - 2 ^ 990 →
            r = Raise RuntimeError_could_not_compress)).
Proof.
  intros Hw Hh Hname.
  destruct budget_unreachable_cases as [Hsmall _].
  destruct (compress_run min_resolution w Hw Hh Hname)
    as (k & ending & Hrej & Hrun & ->).
  change (fun i : nat => (1 + Z.of_nat i, Z.max 64 (256 - 32 * Z.of_nat i)))
    with schedule.
  destruct Hrun as [->|content Hk Henc Hfit|e [partial|] Hk Henc];
    cbn [settle]; eexists _, _.
  - exists frame_count. split; [reflexivity|]. split; [done|].
    split; [done|]. split; [intros; apply Hrej; lia|].
    intros _. split; [done|]. split; [done|]. intros Hsize.
    by rewrite Hsmall.
  - exists (S k). split; [reflexivity|]. split; [lia|].
    cbn [entered]. split; [by rewrite entered_next|].
    split; [intros; apply Hrej; lia|].
    intros Hall. pose proof (rejects_saved k content (Hall k Hk) Henc). lia.
  - exists (S k). split; [reflexivity|]. split; [lia|].
    cbn [entered]. split; [by rewrite entered_next|].
    split; [intros; apply Hrej; lia|].
    intros Hall. destruct (Hall k Hk) as (content & Henc' & _). congruence.
  - exists (S k). split; [reflexivity|]. split; [lia|].
    cbn [entered]. split; [by rewrite entered_next|].
    split; [intros; apply Hrej; lia|].
    intros Hall. destruct (Hall k Hk) as (content & Henc' & _). congruence.
Qed.

(** C7: when one of the two canvas dimensions is below [min_resolution],
    [compress_to_target_size] raises the ValueError of line 113
    (ResolutionTooLow) and the world is as it was: no iteration was
    entered and storage is untouched. *)
Theorem resolution_checked_first min_resolution w :
  fst (size animation) < min_resolution
  ∨ snd (size animation) < min_resolution →
  compress_to_target_size animation output_path target_size_bytes
    alpha_threshold min_resolution w
  = Some (Raise ValueError_resolution_below_minimum, w).
Proof.
  intros Hlow. unfold compress_to_target_size.
  destruct (Z.ltb_spec (fst (size animation)) min_resolution); [done|].
  destruct (Z.ltb_spec (snd (size animation)) min_resolution); [done|].
  lia.
Qed.

(** C9, as the code has it: the temporary file of an iteration is deleted
    when the candidate is rejected and moved to the output path when it is
    promoted.  So when no entered iteration ended in an exception (in
    particular whenever the search returns) no temporary file of an
    entered iteration is left, and in every case the paths other than the
    output path and those temporary paths hold what they held before.
    Nothing is said here about an iteration that raises: the code has no
    clean-up on that path. *)
Theorem temp_files_removed min_resolution w :
  min_resolution ≤ fst (size animation) →
  min_resolution ≤ snd (size animation) →
  name output_path ≠ EmptyString →
  ∃ r w' (steps : nat),
    compress_to_target_size animation output_path target_size_bytes
      alpha_threshold min_resolution w = Some (r, w')
    ∧ entered w' = entered w ++ (schedule <$> seq 0 steps)
    ∧ (∀ p, p ≠ output_path →
            (∀ i, (i < steps)%nat → p ≠ temp i) →
            fs w' !! p = fs w !! p)
    ∧ ((∀ i, (i < steps)%nat → ∃ content, encoding i = Saved content) →
       ∀ i, (i < steps)%nat → fs w' !! temp i = None)
    ∧ (∀ path, r = Ok path →
       ∀ i, (i < steps)%nat → fs w' !! temp i = None).
Proof.
  intros Hw Hh Hname.
  destruct (compress_run min_resolution w Hw Hh Hname)
    as (k & ending & Hrej & Hrun & ->).
  assert (∀ content i, (i < S k)%nat →
            <[output_path := content]>
              (delete (temp k)
                 (purge (temp_path output_path ∘ schedule <$> seq 0 k) (fs w)))
            !! temp i = None) as Hpromoted.
  { intros content i Hi.
    rewrite lookup_insert_ne by (apply not_eq_sym, temp_path_not_output).
    destruct (decide (temp k = temp i)) as [->|Hne].
    - apply lookup_delete_eq.
    - rewrite lookup_delete_ne by done. apply lookup_temps_purged.
      assert (i ≠ k) by (intros ->; done). lia. }
  destruct Hrun as [->|content Hk Henc Hfit|e [partial|] Hk Henc];
    cbn [settle]; eexists _, _.
  - exists frame_count. split; [reflexivity|]. cbn [fs entered].
    split; [done|]. split; [intros p _ Hp; by apply lookup_other_purged|].
    split; [intros _ i Hi; by apply lookup_temps_purged|]. discriminate.
  - exists (S k). split; [reflexivity|]. cbn [fs entered].
    split; [by rewrite entered_next|]. split.
    + intros p Hout Hp. rewrite lookup_insert_ne by done.
      rewrite lookup_delete_ne by (apply not_eq_sym, Hp; lia).
      apply lookup_other_purged. intros i Hi. apply Hp. lia.
    + split; [intros _ i Hi|intros path _ i Hi]; by apply Hpromoted.
  - exists (S k). split; [reflexivity|]. cbn [fs entered].
    split; [by rewrite entered_next|]. split.
    + intros p Hout Hp.
      rewrite lookup_insert_ne by (apply not_eq_sym, Hp; lia).
      apply lookup_other_purged. intros i Hi. apply Hp. lia.
    + split; [|discriminate].
      intros Hall. destruct (Hall k ltac:(lia)) as [content Henc']. congruence.
  - exists (S k). split; [reflexivity|]. cbn [fs entered].
    split; [by rewrite entered_next|]. split.
    + intros p Hout Hp. apply lookup_other_purged. intros i Hi. apply Hp. lia.
    + split; [|discriminate].
      intros Hall. destruct (Hall k ltac:(lia)) as [content Henc']. congruence.
Qed.

End SearchFacts.

(** ** Empty animations, loading and resizing *)

Section Loading.

Context {pillow : Pillow}.

Lemma load_animation_frames img loaded :
  load_animation img = Ok loaded →
  frames loaded ≠ [] ∧ length (durations loaded) = length (frames loaded).
Proof.
  unfold load_animation.
  destruct (decide (format img ≠ "PNG")); [discriminate|].
  destruct (decide (map converted (sequence img) = [])) as [|Hne];
    [discriminate|].
  destruct (map converted (sequence img)) as [|first rest] eqn:Hframes;
    [done|].
  cbn [Py.head mbind result_bind]. intros [= <-]. cbn [frames durations].
  split; [done|]. rewrite <- Hframes. by rewrite !length_map.
Qed.

Lemma save_as_gif_no_frames animation output_path colors alpha_threshold w :
  frames animation = [] →
  save_as_gif animation output_path colors alpha_threshold w
  = (Raise IndexError, w).
Proof.
  intros Hnone. unfold save_as_gif. cbv [mbind M_bind lift].
  by rewrite paletted_frames_eq, Hnone.
Qed.

(** C8, as the code has it: [save_as_gif] does not test for an animation
    without frames; given one it fails at [all_pixels[0]] with an IndexError,
    which is none of the specification's errors, before anything is written.
    The test for zero frames is the one of [load_animation], lines 30-31: a
    PNG without frames raises its RuntimeError (EmptyAnimation), so
    [load_animation] never returns such an animation. *)
Theorem zero_frames_checked_at_load animation output_path colors alpha_threshold w :
  frames animation = [] →
  save_as_gif animation output_path colors alpha_threshold w
  = (Raise IndexError, w)
  ∧ taxonomy IndexError = None
  ∧ taxonomy RuntimeError_no_frames = Some EmptyAnimation
  ∧ ∀ img,
      load_animation img ≠ Ok animation
      ∧ (format img = "PNG" → sequence img = [] →
         load_animation img = Raise RuntimeError_no_frames).
Proof.
  intros Hnone. split; [by apply save_as_gif_no_frames|].
  split; [done|]. split; [done|]. intros img. split.
  - intros Hload. by apply load_animation_frames in Hload as [? _].
  - intros Hpng Hseq. unfold load_animation.
    rewrite decide_False by (by intros ?).
    by rewrite Hseq, decide_True.
Qed.

Lemma mapM_resize_spec target (l : list Frame) resized :
  mapM (fun frame => resize_lanczos frame target) l = Ok resized →
  length resized = length l
  ∧ Forall (fun frame => frame_size frame = target) resized.
Proof.
  intros Hall%mapM_Ok_inv. split.
  - symmetry. by eapply Forall2_length.
  - apply (Forall2_Forall_r _ _ _ _ Hall), Forall_forall.
    intros frame _ frame' Hresize. by apply resize_size in Hresize.
Qed.

(** C10: for positive target dimensions [resize_animation] returns an
    animation with as many frames as its input, the same durations and the
    same loop count, whose canvas size is the target size and whose frames
    all have the target size. *)
Theorem resize_changes_size_only anim (width height : Z) :
  0 < width →
  0 < height →
  ∃ resized,
    resize_animation anim (width, height) = Ok resized
    ∧ length (frames resized) = length (frames anim)
    ∧ durations resized = durations anim
    ∧ loop resized = loop anim
    ∧ size resized = (width, height)
    ∧ Forall (fun frame => frame_size frame = (width, height)) (frames resized).
Proof.
  intros Hw Hh. unfold resize_animation.
  destruct (mapM_Ok_intro
              (fun frame => resize_lanczos frame (width, height)) (frames anim))
    as [resized Hresized].
  { intros frame _. by apply resize_accepts. }
  rewrite Hresized. cbn [mbind result_bind]. eexists. split; [reflexivity|].
  cbn [frames durations loop size].
  destruct (mapM_resize_spec _ _ _ Hresized) as [Hlen Hsizes]. done.
Qed.

End Loading.

(** ** Runs on the sample animation *)

Example reduce_frames_10_by_2 :
  reduce_frames (seq 0 10) (replicate 10 (Py.Int 40)) 2
  = Ok ([0; 2; 4; 6; 8]%nat, Py.Int <$> [80; 80; 80; 80; 80]).
Proof. reflexivity. Qed.

Example reduce_frames_7_by_3 :
  reduce_frames (seq 0 7) (Py.Int <$> [10; 20; 30; 40; 50; 60; 70]) 3
  = Ok ([0; 3; 6]%nat, Py.Int <$> [60; 150; 70]).
Proof. reflexivity. Qed.

Example reduce_frames_backwards :
  reduce_frames (seq 0 7) (Py.Int <$> [10; 20; 30; 40; 50; 60; 70]) (-3)
  = Ok ([6; 3; 0]%nat, []).
Proof. reflexivity. Qed.

Example reduce_frames_zero :
  reduce_frames (seq 0 7) (Py.Int <$> [10; 20; 30; 40; 50; 60; 70]) 0
  = Raise ValueError_zero_step.
Proof. reflexivity. Qed.

Example search_promotes_third_candidate :
  ∃ w',
    compress_to_target_size (pillow := toy_pillow toy_encode)
      sample_animation sample_output 200 10 2 empty_world
    = Some (Ok sample_output, w')
    ∧ entered w' = [(1, 256); (2, 224); (3, 192)]
    ∧ length <$> fs w' !! sample_output = Some 199%nat
    ∧ fs w' !! temp_path sample_output (3, 192) = None.
Proof.
  eexists. split; [vm_compute; reflexivity|].
  split; [reflexivity|]. split; reflexivity.
Qed.

Example search_exhausts_schedule :
  ∃ w',
    compress_to_target_size (pillow := toy_pillow toy_encode)
      sample_animation sample_output 10 10 2 empty_world
    = Some (Raise RuntimeError_could_not_compress, w')
    ∧ entered w' = [(1, 256); (2, 224); (3, 192); (4, 160)]
    ∧ fs w' = ∅.
Proof. eexists. split; [vm_compute; reflexivity|]. by vm_compute. Qed.

(** A fully opaque frame under threshold 10 and palette size 4: no pixel
    gets the transparency index 3. *)
Example opaque_frame_keeps_colours :
  paletted_frames (pillow := toy_pillow toy_encode)
    {| frames := [{| frame_size := (2, 2);
                     frame_data := [(10, 0, 0, 255); (11, 0, 0, 255);
                                    (12, 0, 0, 255); (13, 0, 0, 255)] |}];
       durations := [Py.Int 40]; loop := 0; size := (2, 2) |} 4 10
  = Ok [{| p_size := (2, 2);
           p_palette := [(0, 0, 0); (1, 1, 1); (2, 2, 2)];
           p_data := [1; 2; 0; 1] |}].
Proof. reflexivity. Qed.

(** A frame whose alpha is at most 5 everywhere: every pixel gets index 3. *)
Example faint_frame_is_transparent :
  paletted_frames (pillow := toy_pillow toy_encode)
    {| frames := [{| frame_size := (2, 2);
                     frame_data := [(10, 0, 0, 5); (11, 0, 0, 0);
                                    (12, 0, 0, 3); (13, 0, 0, 5)] |}];
       durations := [Py.Int 40]; loop := 0; size := (2, 2) |} 4 10
  = Ok [{| p_size := (2, 2);
           p_palette := [(0, 0, 0); (1, 1, 1); (2, 2, 2)];
           p_data := [3; 3; 3; 3] |}].
Proof. reflexivity. Qed.

(** *** Witnesses *)


Lemma reduce_frames_count_witness :
  ∃ reduced_frames,
    Py.len reduced_frames = ceil_div (Py.len (replicate 7 (sample_frame 10))) 3
    ∧ (∀ j : nat,
         reduced_frames !! j
         = replicate 7 (sample_frame 10) !! (j * Z.to_nat 3)%nat)
    ∧ match reduce_frames (replicate 7 (sample_frame 10)) durations_30fps 3 with
      | Ok (reduced_frames', reduced_durations) =>
          reduced_frames' = reduced_frames
          ∧ Py.len reduced_durations
            = ceil_div (Py.len (replicate 7 (sample_frame 10))) 3
      | Raise e =>
          e = OverflowError
          ∧ Py.float_limit ≤ int_mass durations_30fps
          ∧ ∀ zs : list Z, durations_30fps ≠ Py.Int <$> zs
      end.
Proof.
  apply (reduce_frames_count
           (replicate 7 (sample_frame 10)) durations_30fps 3).
  - lia.
  - reflexivity.
Defined.

Lemma transparency_index_witness :
  ∃ p_frame ix,
    [{| p_size := (2, 2);
        p_palette := [(0, 0, 0); (1, 1, 1); (2, 2, 2)];
        p_data := [1; 3; 0; 1] |}] !! 0%nat = Some p_frame
    ∧ p_data p_frame !! 1%nat = Some ix
    ∧ (5 < 10 → ix = 4 - 1)
    ∧ (10 ≤ 5 → ix ≠ 4 - 1).
Proof.
  apply (transparency_index (pillow := toy_pillow toy_encode)
           {| frames := [sample_frame 10]; durations := [Py.Int 40];
              loop := 0; size := (2, 2) |}
           4 10 _ 0 1 (sample_frame 10) 11 0 0 5).
  - lia.
  - lia.
  - reflexivity.
  - reflexivity.
  - reflexivity.
Defined.

Lemma palette_from_first_frame_witness :
  ∃ palette_img p_first rest,
    quantize_mediancut (Pillow := toy_pillow toy_encode)
      (merge_rgb (sample_frame 10)) (4 - 1) = Ok palette_img
    ∧ Py.len (p_palette palette_img) ≤ 4 - 1
    ∧ overwritten 4 10 (sample_frame 10) palette_img = Ok p_first
    ∧ paletted_frames (pillow := toy_pillow toy_encode) sample_animation 4 10
      = Ok (p_first :: rest)
    ∧ Forall2 (fun frame p_frame =>
                 ∃ q, quantize_palette (Pillow := toy_pillow toy_encode)
                        (merge_rgb frame) (p_palette palette_img) = Ok q
                      ∧ overwritten 4 10 frame q = Ok p_frame)
              (sample_frame <$> [20; 30; 40]) rest
    ∧ Forall (fun p_frame => p_palette p_frame = p_palette palette_img)
             (p_first :: rest).
Proof.
  apply (palette_from_first_frame (pillow := toy_pillow toy_encode)
           sample_animation 4 10 (sample_frame 10)
           (sample_frame <$> [20; 30; 40])).
  - lia.
  - reflexivity.
  - discriminate.
Defined.


Lemma search_schedule_witness :
  ∃ r w' (steps : nat),
    compress_to_target_size (pillow := toy_pillow toy_encode)
      sample_animation sample_output 10 10 2 empty_world = Some (r, w')
    ∧ (steps ≤ length (frames sample_animation))%nat
    ∧ entered w'
      = entered empty_world
        ++ ((fun i : nat => (1 + Z.of_nat i, Z.max 64 (256 - 32 * Z.of_nat i)))
            <$> seq 0 steps)
    ∧ (∀ i, (S i < steps)%nat →
         over_budget (pillow := toy_pillow toy_encode)
           sample_animation 10 10 i)
    ∧ ((∀ i, (i < length (frames sample_animation))%nat →
          over_budget (pillow := toy_pillow toy_encode)
            sample_animation 10 10 i) →
       r = Raise (budget_unreachable 10)
       ∧ steps = length (frames sample_animation)
       ∧ (Z.abs 10 < 2 ^ 1044 - 2 ^ 990 →
          r = Raise RuntimeError_could_not_compress)).
Proof.
  apply (search_schedule (pillow := toy_pillow toy_encode)
           sample_animation sample_output 10 10 2 empty_world).
  - simpl. lia.
  - simpl. lia.
  - discriminate.
Defined.

Lemma resolution_checked_first_witness :
  compress_to_target_size (pillow := toy_pillow toy_encode)
    {| frames := frames sample_animation;
       durations := durations sample_animation;
       loop := 0;
       size := (800, 800) |}
    sample_output 200 10 1000 empty_world
  = Some (Raise ValueError_resolution_below_minimum, empty_world).
Proof.
  apply (resolution_checked_first (pillow := toy_pillow toy_encode)).
  left. simpl. lia.
Defined.

Lemma temp_files_removed_witness :
  ∃ r w' (steps : nat),
    compress_to_target_size (pillow := toy_pillow toy_encode)
      sample_animation sample_output 200 10 2 empty_world = Some (r, w')
    ∧ entered w' = entered empty_world ++ (schedule <$> seq 0 steps)
    ∧ (∀ p, p ≠ sample_output →
            (∀ i, (i < steps)%nat → p ≠ temp_path sample_output (schedule i)) →
            fs w' !! p = fs empty_world !! p)
    ∧ ((∀ i, (i < steps)%nat →
          ∃ content, attempt (pillow := toy_pillow toy_encode)
                       sample_animation 10 (schedule i) = Saved content) →
       ∀ i, (i < steps)%nat →
         fs w' !! temp_path sample_output (schedule i) = None)
    ∧ (∀ path, r = Ok path →
       ∀ i, (i < steps)%nat →
         fs w' !! temp_path sample_output (schedule i) = None).
Proof.
  apply (temp_files_removed (pillow := toy_pillow toy_encode)
           sample_animation sample_output 200 10 2 empty_world).
  - simpl. lia.
  - simpl. lia.
  - discriminate.
Defined.

Lemma zero_frames_checked_at_load_witness :
  save_as_gif (pillow := toy_pillow toy_encode) no_frames sample_output 256 10
    empty_world
  = (Raise IndexError, empty_world)
  ∧ taxonomy IndexError = None
  ∧ taxonomy RuntimeError_no_frames = Some EmptyAnimation
  ∧ ∀ img,
      load_animation img ≠ Ok no_frames
      ∧ (format img = "PNG" → sequence img = [] →
         load_animation img = Raise RuntimeError_no_frames).
Proof.
  apply (zero_frames_checked_at_load (pillow := toy_pillow toy_encode)
           no_frames sample_output 256 10 empty_world).
  reflexivity.
Defined.

Lemma resize_changes_size_only_witness :
  ∃ resized,
    resize_animation (pillow := toy_pillow toy_encode) sample_animation (3, 5)
    = Ok resized
    ∧ length (frames resized) = length (frames sample_animation)
    ∧ durations resized = durations sample_animation
    ∧ loop resized = loop sample_animation
    ∧ size resized = (3, 5)
    ∧ Forall (fun frame => frame_size frame = (3, 5)) (frames resized).
Proof.
  apply (resize_changes_size_only (pillow := toy_pillow toy_encode)
           sample_animation 3 5).
  - lia.
  - lia.
Defined.

(** *** Counterexamples *)



(** C5 as stated fails at [N = 1]: the builder asks for a colour table of
    [N - 1 = 0] colours, which cannot index the pixel of a frame, so with any
    quantizer that meets the interface the call raises. *)
Lemma palette_size_one_is_rejected :
  ∃ animation,
    frames animation ≠ []
    ∧ 1 ≤ 1 ≤ 256
    ∧ ∀ (pillow : Pillow) alpha_threshold,
        ∃ e, paletted_frames animation 1 alpha_threshold = Raise e.
Proof.
  exists {| frames := [sample_frame 10]; durations := [Py.Int 40];
            loop := 0; size := (2, 2) |}.
  split; [discriminate|]. split; [lia|]. intros pillow alpha_threshold.
  rewrite paletted_frames_eq. cbn [frames].
  destruct (quantize_mediancut _ _) as [palette_img|e] eqn:Hcut; [|by eexists].
  apply mediancut_indexes in Hcut as (Hcolours & _ & Hlen & Hrange).
  destruct (p_data palette_img) as [|ix data]; [discriminate|].
  apply Forall_cons in Hrange as [Hix _]. lia.
Qed.

(** C8 as stated fails: given an animation without frames [save_as_gif]
    ends with an IndexError, which is not the EmptyAnimation error. *)
Lemma zero_frames_raise_index_error :
  ∃ animation,
    frames animation = []
    ∧ taxonomy IndexError ≠ Some EmptyAnimation
    ∧ ∀ (pillow : Pillow) output_path colors alpha_threshold w,
        save_as_gif animation output_path colors alpha_threshold w
        = (Raise IndexError, w).
Proof.
  exists no_frames. split; [done|]. split; [discriminate|].
  intros. by apply save_as_gif_no_frames.
Qed.

(** C9 as stated fails on the error path: when the encoder raises after it
    has started to write over a file an earlier run left at the temporary
    path, the search ends with that exception and the partly written file of
    the iteration is still there. *)
Lemma failed_encoding_leaves_temp_file :
  ∃ e w',
    compress_to_target_size (pillow := toy_pillow failing_encode)
      sample_animation sample_output 200 10 2
      {| fs := {[temp_path sample_output (1, 256) := [x00]]}; entered := [] |}
    = Some (Raise e, w')
    ∧ entered w' = [(1, 256)]
    ∧ fs w' !! temp_path sample_output (1, 256) = Some [x47; x49; x46]
    ∧ temp_path sample_output (1, 256) ≠ sample_output.
Proof.
  eexists _, _. split; [vm_compute; reflexivity|].
  split; [by vm_compute|]. split; [by vm_compute|]. discriminate.
Qed.

(** * Further properties of the code *)

(** ** Frame-rate reducer *)

Section ReducerMore.

Context {F : Type}.
Implicit Types (frames : list F) (durations : list Py.num) (k : Z).

(** The frames a positive stride keeps, position by position. *)
Lemma kept_lookup frames (k c : nat) :
  (0 < k)%nat →
  (length frames ≤ c * k)%nat →
  (∀ i, i < c → i * k < length frames)%nat →
  ∀ j, omap (M := list) (fun i : nat => frames !! (i * k)%nat) (seq 0 c) !! j
       = frames !! (j * k)%nat.
Proof.
  intros Hk Hcover Hin j.
  destruct (stride_seq frames k c Hin) as [Hcount Hkept].
  destruct (decide (j < c)%nat) as [Hj|Hj]; [by apply Hkept|].
  rewrite !lookup_ge_None_2; [done|nia|lia].
Qed.

Lemma reduced_frames_lookup frames durations k reduced_frames reduced_durations :
  1 ≤ k →
  reduce_frames frames durations k = Ok (reduced_frames, reduced_durations) →
  ∀ j : nat, reduced_frames !! j = frames !! (j * Z.to_nat k)%nat.
Proof.
  intros Hk Hreduce.
  pose proof (reduce_frames_outcome frames durations k Hk) as Hout.
  rewrite Hreduce in Hout. destruct Hout as [-> _].
  by apply kept_frames_spec.
Qed.

Lemma sum_singleton (x : Z) : total [x] = x.
Proof. rewrite sum_cons. unfold total. simpl. lia. Qed.

(** [0 + f] is [f] for every float but the negative zero, which comes back
    as the positive one. *)
Lemma zero_add_float (f : PrimFloat.float) :
  f ≠ PrimFloat.neg_zero → PrimFloat.add (Py.nearest 0) f = f.
Proof.
  intros Hf. apply FloatAxioms.Prim2SF_inj. rewrite FloatAxioms.add_spec.
  change (FloatOps.Prim2SF (Py.nearest 0)) with (SpecFloat.S754_zero false).
  destruct (FloatOps.Prim2SF f) as [s|s| |s m e] eqn:Hsf; try reflexivity.
  destruct s; [|reflexivity].
  destruct Hf. rewrite <- (FloatAxioms.SF2Prim_Prim2SF f), Hsf. reflexivity.
Qed.

Lemma sum_one (d : Py.num) :
  d ≠ Py.Float PrimFloat.neg_zero → Py.sum [d] = Ok d.
Proof.
  intros Hd. unfold Py.sum. cbn [fold_left mbind result_bind].
  destruct d as [z|f]; cbn [Py.add]; [done|].
  unfold Py.to_float.
  change (Py.float_limit <=? Z.abs 0) with false.
  cbn [mbind result_bind]. rewrite zero_add_float; [done|]. congruence.
Qed.

Lemma ceil_div_one (n : Z) : ceil_div n 1 = n.
Proof. apply ceil_div_unique; lia. Qed.

(** X1: a skip factor of 1 changes nothing: [reduce_frames] returns the
    frames and the durations it was given.  The search does not call it at
    [skip_factor = 1] (lines 118-122); calling it would give the same
    candidate.  The one duration that does not come back as it was is the
    float [-0.0]: each new duration is [sum] of a single one, [0 + d],
    and [0 + -0.0] is [0.0]. *)
Theorem reduce_frames_identity frames durations :
  Forall (fun d => d ≠ Py.Float PrimFloat.neg_zero) durations →
  reduce_frames frames durations 1 = Ok (frames, durations).
Proof.
  intros Hdurations.
  rewrite reduce_frames_pos by lia. unfold kept_frames, group.
  rewrite !ceil_div_one. unfold Py.len.
  rewrite !Nat2Z.id. change (Z.to_nat 1) with 1%nat.
  rewrite (mapM_Ok_fmap _ (fun i : nat => default (Py.Int 0) (durations !! i))).
  - cbn [mbind result_bind]. do 2 f_equal.
    + apply list_eq. intros j.
      rewrite kept_lookup by lia. by rewrite Nat.mul_1_r.
    + apply list_eq. intros j. rewrite list_lookup_fmap.
      destruct (decide (j < length durations)%nat) as [Hj|Hj].
      * rewrite lookup_seq_lt by done. cbn [fmap option_fmap option_map plus].
        destruct (lookup_lt_is_Some_2 durations j Hj) as [x Hx].
        by rewrite Hx.
      * rewrite lookup_seq_ge by lia. by rewrite lookup_ge_None_2 by lia.
  - intros i [_ Hi]%elem_of_seq. rewrite Nat.mul_1_r.
    destruct (lookup_lt_is_Some_2 durations i ltac:(lia)) as [x Hx].
    rewrite Hx, (drop_S _ _ _ Hx). cbn [take default]. rewrite take_0.
    apply sum_one. by eapply (Forall_lookup_1 _ _ _ _ Hdurations).
Qed.


Lemma omap_indices (l : list F) (g : nat → nat) (c : nat) :
  (∀ i, i < c → g i < length l)%nat →
  let kept := omap (M := list) (fun i : nat => l !! g i) (seq 0 c) in
  length kept = c ∧ ∀ j, (j < c)%nat → kept !! j = l !! g j.
Proof.
  induction c as [|c IH]; intros Hin kept; subst kept.
  - split; [reflexivity | intros; lia].
  - rewrite seq_S, omap_app. cbn [omap list_omap].
    destruct (IH ltac:(intros; apply Hin; lia)) as [Hlen Hlook].
    destruct (lookup_lt_is_Some_2 l (g c)) as [x Hx]; [apply Hin; lia|].
    cbn [plus]. rewrite Hx. rewrite length_app, Hlen. split; [simpl; lia|].
    intros j Hj. destruct (decide (j = c)) as [->|].
    + rewrite lookup_app_r by lia. rewrite Hlen, Nat.sub_diag. by rewrite Hx.
    + rewrite lookup_app_l by lia. apply Hlook. lia.
Qed.

Lemma omap_positions (l : list F) (g : nat → Z) (steps : list nat) :
  omap (M := list) (fun i : Z => l !! Z.to_nat i) (map g steps)
  = omap (M := list) (fun i : nat => l !! Z.to_nat (g i)) steps.
Proof.
  induction steps as [|i steps IH]; [done|].
  cbn [map omap list_omap]. by rewrite <- IH.
Qed.

(** X3: outside its contract [reduce_frames] does not fail the same way
    for every factor below 1.  A factor of 0 raises the ValueError of a zero
    slice step.  A negative factor [k] raises nothing: the frames come back
    in reverse order, every [-k]-th one counted from the last, with an
    empty list of durations, since [range(0, len, k)] is empty. *)
Theorem reduce_frames_nonpositive frames durations k :
  k ≤ 0 →
  (k = 0 ∧ reduce_frames frames durations k = Raise ValueError_zero_step)
  ∨ (k < 0
     ∧ ∃ reduced_frames,
         reduce_frames frames durations k = Ok (reduced_frames, [])
         ∧ Py.len reduced_frames = ceil_div (Py.len frames) (- k)
         ∧ ∀ j : nat,
             (j < length reduced_frames)%nat →
             reduced_frames !! j
             = frames !! (length frames - 1 - j * Z.to_nat (- k))%nat).
Proof.
  intros Hk. destruct (decide (k = 0)) as [->|Hne]; [by left|].
  right. split; [lia|].
  unfold reduce_frames, Py.stride, Py.range.
  destruct (Z.ltb_spec 0 k); [lia|].
  destruct (Z.eqb_spec k 0); [done|].
  cbn [mbind result_bind].
  assert (Py.range_len 0 (Py.len durations) k = 0) as ->.
  { unfold Py.range_len, Py.len.
    destruct (Z.ltb_spec 0 k); [lia|]. destruct (Z.ltb_spec k 0); [|lia].
    destruct (Z.ltb_spec (Z.of_nat (length durations)) 0); [lia|done]. }
  cbn [Z.to_nat seq map mapM mret result_ret mbind result_bind].
  eexists. split; [reflexivity|].
  assert (Py.range_len (Py.len frames - 1) (-1) k
          = ceil_div (Py.len frames) (- k)) as ->.
  { unfold Py.range_len, Py.len.
    destruct (Z.ltb_spec 0 k); [lia|]. destruct (Z.ltb_spec k 0); [|lia].
    symmetry. apply ceil_div_unique; [lia|].
    destruct (Z.ltb_spec (-1) (Z.of_nat (length frames) - 1)).
    - pose proof (Z.div_mod (Z.of_nat (length frames) - 1 - -1 - 1) (- k)
                    ltac:(lia)).
      pose proof (Z.mod_pos_bound (Z.of_nat (length frames) - 1 - -1 - 1) (- k)
                    ltac:(lia)). nia.
    - lia. }
  pose proof (ceil_div_spec (Py.len frames) (- k) ltac:(lia)) as Hceil.
  set (c := ceil_div (Py.len frames) (- k)) in *.
  assert (0 ≤ c) by (unfold Py.len in *; nia).
  rewrite omap_positions.
  destruct (omap_indices frames
              (fun i : nat => Z.to_nat (Py.len frames - 1 + Z.of_nat i * k))
              (Z.to_nat c)) as [Hcount Hkept].
  { intros i Hi. unfold Py.len in *. nia. }
  split; [unfold Py.len at 1; rewrite Hcount; lia|].
  intros j Hj. rewrite Hcount in Hj. rewrite Hkept by done.
  f_equal. unfold Py.len in *.
  assert (Z.of_nat j * (- k) ≤ Z.of_nat (length frames) - 1) by nia.
  assert (Z.of_nat (j * Z.to_nat (- k)) = Z.of_nat j * (- k)) by lia.
  lia.
Qed.


Lemma groups_sum_range (k c : nat) :
  ∀ (s : nat) (l : list Z),
    total (map (fun i : nat => total (take k (drop (i * k) l))) (seq s c))
    = total (take (c * k) (drop (s * k) l)).
Proof.
  induction c as [|c IH]; intros s l; [reflexivity|].
  cbn [seq map]. rewrite sum_cons, IH.
  replace (S c * k)%nat with (k + c * k)%nat by lia.
  replace (S s * k)%nat with (s * k + k)%nat by lia.
  by rewrite <- take_take_drop, sum_app, drop_drop.
Qed.

Lemma reduced_durations_lookup frames (zs : list Z) k
    reduced_frames reduced_durations :
  1 ≤ k →
  reduce_frames frames (Py.Int <$> zs) k
  = Ok (reduced_frames, reduced_durations) →
  reduced_durations
  = Py.Int
    <$> ((fun i : nat => total (take (Z.to_nat k) (drop (i * Z.to_nat k) zs)))
         <$> seq 0 (Z.to_nat (ceil_div (Py.len zs) k))).
Proof. intros Hk. rewrite reduce_frames_ints by done. by intros [= _ <-]. Qed.

Lemma ceil_div_twice (n a b : Z) :
  0 ≤ n → 1 ≤ a → 1 ≤ b →
  ceil_div (ceil_div n a) b = ceil_div n (a * b).
Proof.
  intros Hn Ha Hb. symmetry. apply ceil_div_unique; [nia|].
  pose proof (ceil_div_spec n a ltac:(lia)).
  pose proof (ceil_div_spec (ceil_div n a) b ltac:(lia)).
  nia.
Qed.

(** X2: reducing by [a] and then by [b] is reducing by [a * b].  The
    frames are the same whatever the durations are; the durations are the
    same when they are ints, which are added exactly (floats are added
    group by group, and regrouping them rounds differently). *)
Theorem reduce_frames_compose frames durations (a b : Z)
    frames1 durations1 frames2 durations2 :
  1 ≤ a →
  1 ≤ b →
  reduce_frames frames durations a = Ok (frames1, durations1) →
  reduce_frames frames1 durations1 b = Ok (frames2, durations2) →
  (∀ frames3 durations3,
     reduce_frames frames durations (a * b) = Ok (frames3, durations3) →
     frames3 = frames2)
  ∧ (∀ zs : list Z,
       durations = Py.Int <$> zs →
       reduce_frames frames durations (a * b) = Ok (frames2, durations2)).
Proof.
  intros Ha Hb H1 H2.
  assert (∀ frames3 durations3,
            reduce_frames frames durations (a * b) = Ok (frames3, durations3) →
            frames3 = frames2) as Hframes.
  { intros frames3 durations3 H3. apply list_eq. intros j.
    rewrite (reduced_frames_lookup frames durations (a * b) _ _ ltac:(nia) H3).
    rewrite (reduced_frames_lookup _ _ _ _ _ Hb H2).
    rewrite (reduced_frames_lookup _ _ _ _ _ Ha H1).
    f_equal. nia. }
  split; [done|]. intros zs ->.
  destruct (reduce_frames frames (Py.Int <$> zs) (a * b))
    as [[frames3 durations3]|e] eqn:H3;
    [|by rewrite reduce_frames_ints in H3 by nia].
  f_equal. f_equal; [by eapply Hframes|].
  rewrite (reduced_durations_lookup frames zs (a * b) _ _ ltac:(nia) H3).
  rewrite (reduced_durations_lookup frames zs a _ _ Ha H1) in H2.
  rewrite (reduced_durations_lookup _ _ _ _ _ Hb H2).
  f_equal.
  set (n := Py.len zs).
  pose proof (ceil_div_spec n a ltac:(lia)) as Hca.
  assert (0 ≤ n) as Hn by (unfold n, Py.len; lia).
  assert (0 ≤ ceil_div n a) as Hca0 by nia.
  unfold Py.len. rewrite length_fmap, length_seq, Z2Nat.id by done.
  fold (Py.len zs). fold n.
  rewrite ceil_div_twice by done.
  apply list_eq. intros j. rewrite !list_lookup_fmap.
  destruct (decide (j < Z.to_nat (ceil_div n (a * b)))%nat) as [Hj|Hj];
    [|by rewrite !lookup_seq_ge by lia].
  rewrite !lookup_seq_lt by done. cbn [fmap option_fmap option_map plus].
  f_equal.
  rewrite <- fmap_drop, <- fmap_take, drop_seq, take_seq.
  change (?f <$> ?l) with (map f l). rewrite groups_sum_range.
  cbn [plus].
  set (m := Nat.min (Z.to_nat b) (Z.to_nat (ceil_div n a) - j * Z.to_nat b)).
  rewrite <- ceil_div_twice in Hj by done.
  pose proof (ceil_div_spec (ceil_div n a) b ltac:(lia)) as Hcb.
  destruct (decide (Z.to_nat b ≤ Z.to_nat (ceil_div n a) - j * Z.to_nat b)%nat).
  - do 2 f_equal; [|f_equal]; unfold m; nia.
  - rewrite (take_ge _ (Z.to_nat (a * b))),
      (take_ge _ (m * Z.to_nat a)%nat).
    + do 2 f_equal. nia.
    + rewrite length_drop. unfold m, n, Py.len in *. nia.
    + rewrite length_drop. unfold n, Py.len in *. nia.
Qed.

(** X4: the reducer keeps every frame it keeps at its time.  Kept frame [j]
    is frame [j * k] of the input, whatever the durations are; and when
    the durations are ints, the durations in front of it add up to what the
    durations in front of frame [j * k] add up to in the input. *)
Theorem reduce_frames_keeps_timestamps frames durations k
    reduced_frames reduced_durations (j : nat) :
  1 ≤ k →
  reduce_frames frames durations k = Ok (reduced_frames, reduced_durations) →
  (j ≤ length reduced_durations)%nat →
  reduced_frames !! j = frames !! (j * Z.to_nat k)%nat
  ∧ ∀ zs : list Z,
      durations = Py.Int <$> zs →
      ∃ t, Py.sum (take j reduced_durations) = Ok t
           ∧ Py.sum (take (j * Z.to_nat k) durations) = Ok t.
Proof.
  intros Hk Hreduce Hj.
  split; [by eapply reduced_frames_lookup|]. intros zs ->.
  rewrite (reduced_durations_lookup _ _ _ _ _ Hk Hreduce) in Hj |- *.
  rewrite !length_fmap, length_seq in Hj.
  rewrite <- !fmap_take, !sum_ints. eexists. split; [reflexivity|].
  do 2 f_equal. rewrite take_seq, Nat.min_l by done.
  change (?f <$> ?l) with (map f l). by rewrite groups_sum_range, drop_0.
Qed.

End ReducerMore.

(** ** Loading, palette builder and encoding *)

Section PaletteMore.

Context {pillow : Pillow}.

(** What [paletted_frames] returns, frame by frame: the quantized image of
    each frame, overwritten. *)
Lemma paletted_frames_inv animation N t p_frames :
  paletted_frames animation N t = Ok p_frames →
  ∃ palette_img,
    (∃ first, frames animation !! 0%nat = Some first
              ∧ quantize_mediancut (merge_rgb first) (N - 1) = Ok palette_img)
    ∧ Forall2 (fun frame p_frame =>
                 ∃ q, indexes (merge_rgb frame) q
                      ∧ p_palette q = p_palette palette_img
                      ∧ Py.len (p_palette q) ≤ N - 1
                      ∧ overwritten N t frame q = Ok p_frame)
              (frames animation) p_frames.
Proof.
  rewrite paletted_frames_eq.
  destruct (frames animation) as [|first later]; [done|]. intros Hpal.
  apply bind_Ok_inv in Hpal as (palette_img & Hcut & Hpal).
  apply bind_Ok_inv in Hpal as (p_first & Hfirst & Hpal).
  apply bind_Ok_inv in Hpal as (rest & Hrest & Hpal).
  injection Hpal as <-. exists palette_img. split; [by exists first|].
  destruct (mediancut_indexes _ _ _ Hcut) as [Hcolours Hidx].
  constructor; [by exists palette_img|].
  apply mapM_Ok_inv in Hrest.
  eapply Forall2_impl; [exact Hrest|]. intros frame p_frame Hp.
  apply bind_Ok_inv in Hp as (q & Hq & Hp).
  apply palette_indexes in Hq as [Hsame Hqidx].
  exists q. by rewrite Hsame.
Qed.

(** X6: the shape of what [save_as_gif] hands to the encoder, for a
    palette size of at least 1: one paletted frame per input frame, each of
    the size of its frame with one index per pixel, every index between 0
    and [N - 1], and a colour table of at most [N - 1] colours, so that the
    transparency index [N - 1] is never the index of a colour. *)
Theorem paletted_frames_shape animation N t p_frames :
  1 ≤ N →
  paletted_frames animation N t = Ok p_frames →
  length p_frames = length (frames animation)
  ∧ ∀ (i : nat) frame p_frame,
      frames animation !! i = Some frame →
      p_frames !! i = Some p_frame →
      p_size p_frame = frame_size frame
      ∧ length (p_data p_frame) = length (frame_data frame)
      ∧ Forall (fun ix => 0 ≤ ix ≤ N - 1) (p_data p_frame)
      ∧ Py.len (p_palette p_frame) ≤ N - 1.
Proof.
  intros HN (palette_img & _ & Hall)%paletted_frames_inv.
  split; [symmetry; by eapply Forall2_length|].
  intros i frame p_frame Hframe Hp.
  destruct (Forall2_lookup_lr _ _ _ _ _ _ Hall Hframe Hp)
    as (q & Hidx & _ & Hcolours & Hover).
  destruct (overwritten_spec N t frame q Hidx)
    as (p_frame' & Hover' & Hpal & Hsize & Hlen & Hdata).
  rewrite Hover in Hover'. injection Hover' as <-.
  split; [done|]. split; [done|]. split; [|by rewrite Hpal].
  apply Forall_lookup. intros j ix Hix.
  destruct (lookup_lt_is_Some_2 (frame_data frame) j) as [[[[r g] b] a] Hpx].
  { apply lookup_lt_Some in Hix. lia. }
  destruct (Hdata j r g b a Hpx) as (old & _ & Hold & Hnew).
  rewrite Hix in Hnew. injection Hnew as ->.
  destruct (a <? t);
    [pose proof (clip8_range (N - 1))|pose proof (clip8_range old)]; lia.
Qed.

(** X7: raising the alpha threshold only makes pixels transparent, for a
    palette size [1 <= N <= 256], whose transparency index [N - 1] fits the
    eight bits of a pixel.  If the palette builder returns at threshold
    [t], it returns at any [t' >= t]; a pixel that had the transparency
    index keeps it, and a pixel that does not have it at [t'] has the index
    it had at [t]. *)
Theorem threshold_monotone animation N t t' p_frames :
  1 ≤ N ≤ 256 →
  t ≤ t' →
  paletted_frames animation N t = Ok p_frames →
  ∃ p_frames',
    paletted_frames animation N t' = Ok p_frames'
    ∧ ∀ (i j : nat) p_frame ix,
        p_frames !! i = Some p_frame →
        p_data p_frame !! j = Some ix →
        ∃ p_frame' ix',
          p_frames' !! i = Some p_frame'
          ∧ p_data p_frame' !! j = Some ix'
          ∧ (ix = N - 1 → ix' = N - 1)
          ∧ (ix' ≠ N - 1 → ix' = ix).
Proof.
  intros HN Ht Hpal. pose proof Hpal as Hinv.
  apply paletted_frames_inv in Hinv as (palette_img & _ & Hall).
  rewrite paletted_frames_eq in Hpal |- *.
  destruct (frames animation) as [|first later]; [done|].
  apply bind_Ok_inv in Hpal as (palette_img' & Hcut & Hpal).
  apply bind_Ok_inv in Hpal as (p_first & Hfirst & Hpal).
  apply bind_Ok_inv in Hpal as (rest & Hrest & Hpal).
  injection Hpal as <-. rewrite Hcut. cbn [mbind result_bind].
  destruct (mediancut_indexes _ _ _ Hcut) as [Hcolours Hidx].
  destruct (overwritten_spec N t' first palette_img' Hidx)
    as (p_first' & Hfirst' & _).
  rewrite Hfirst'. cbn [mbind result_bind].
  apply mapM_Ok_inv in Hrest.
  destruct (mapM_Ok_intro
              (fun frame =>
                 q ← quantize_palette (merge_rgb frame) (p_palette palette_img');
                 overwritten N t' frame q) later) as [rest' Hrest'].
  { intros frame (k & Hk)%list_elem_of_lookup.
    destruct (Forall2_lookup_l _ _ _ _ _ Hrest Hk) as (p & _ & Hp).
    apply bind_Ok_inv in Hp as (q & Hq & _).
    destruct (palette_indexes _ _ _ Hq) as [_ Hqidx].
    destruct (overwritten_spec N t' frame q Hqidx) as (p' & Hp' & _).
    exists p'. by rewrite Hq. }
  cbv [mbind result_bind] in Hrest' |- *. rewrite Hrest'.
  eexists. split; [reflexivity|].
  assert (∀ frame q p p' (j : nat) ix,
            indexes (merge_rgb frame) q →
            Py.len (p_palette q) ≤ N - 1 →
            overwritten N t frame q = Ok p →
            overwritten N t' frame q = Ok p' →
            p_data p !! j = Some ix →
            ∃ ix', p_data p' !! j = Some ix'
                   ∧ (ix = N - 1 → ix' = N - 1)
                   ∧ (ix' ≠ N - 1 → ix' = ix)) as Hpixel.
  { intros frame q p p' j ix Hq Hqcolours Hp Hp' Hix.
    destruct (overwritten_spec N t frame q Hq) as (p0 & Hp0 & _ & _ & Hlen & Hd).
    destruct (overwritten_spec N t' frame q Hq) as (p0' & Hp0' & _ & _ & _ & Hd').
    rewrite Hp in Hp0. injection Hp0 as <-.
    rewrite Hp' in Hp0'. injection Hp0' as <-.
    destruct (lookup_lt_is_Some_2 (frame_data frame) j) as [[[[r g] b] a] Hpx].
    { apply lookup_lt_Some in Hix. lia. }
    destruct (Hd j r g b a Hpx) as (old & Hold & Hrange & Hnew).
    destruct (Hd' j r g b a Hpx) as (old' & Hold' & _ & Hnew').
    rewrite Hold in Hold'. injection Hold' as <-.
    rewrite Hix in Hnew. injection Hnew as ->.
    eexists. split; [exact Hnew'|].
    rewrite !clip8_id
      by (destruct (a <? t); lia || destruct (a <? t'); lia).
    destruct (Z.ltb_spec a t), (Z.ltb_spec a t'); split; intros; lia. }
  intros [|i] j p_frame ix Hp Hix; simplify_eq/=.
  - destruct (Hpixel first palette_img' p_frame p_first' j ix)
      as (ix' & ? & ?); eauto.
  - apply mapM_Ok_inv in Hrest'.
    destruct (Forall2_lookup_r _ _ _ _ _ Hrest Hp) as (frame & Hframe & Hq).
    destruct (Forall2_lookup_l _ _ _ _ _ Hrest' Hframe) as (p' & Hp' & Hq').
    apply bind_Ok_inv in Hq as (q & Hq & Hover).
    apply bind_Ok_inv in Hq' as (q' & Hq' & Hover').
    rewrite Hq in Hq'. injection Hq' as <-.
    destruct (palette_indexes _ _ _ Hq) as [Hsame Hqidx].
    destruct (Hpixel frame q p_frame p' j ix) as (ix' & ? & ?); eauto.
    by rewrite Hsame.
Qed.

(** X8: [save_as_gif] touches the output path only.  Every other file is
    as it was; when it returns, the number it returns is the length of the
    file now at the output path; when it raises, storage is unchanged or
    the output path holds what the encoder had written when it failed. *)
Theorem save_as_gif_storage animation output_path N t w r w' :
  save_as_gif animation output_path N t w = (r, w') →
  entered w' = entered w
  ∧ (∀ p, p ≠ output_path → fs w' !! p = fs w !! p)
  ∧ (∀ file_size, r = Ok file_size →
       ∃ content, fs w' !! output_path = Some content
                  ∧ file_size = Py.len content)
  ∧ (∀ e, r = Raise e →
       fs w' = fs w
       ∨ ∃ image kwargs partial,
           gif_encode image kwargs = SaveFailed e (Some partial)
           ∧ fs w' !! output_path = Some partial).
Proof.
  unfold save_as_gif. cbv [mbind M_bind lift].
  destruct (paletted_frames animation N t) as [[|first rest]|e];
    cbn [Py.head].
  - intros [= <- <-]. repeat split; try done. intros e [= <-]. by left.
  - unfold image_save.
    destruct (gif_encode first _) as [content|e [partial|]] eqn:Henc.
    + unfold stat_size, with_fs. cbn [fs entered]. rewrite lookup_insert_eq.
      intros [= <- <-]. cbn [fs entered]. split; [done|]. split.
      * intros p Hp. by rewrite lookup_insert_ne.
      * split; [|discriminate]. intros ? [= <-]. exists content.
        by rewrite lookup_insert_eq.
    + intros [= <- <-]. unfold with_fs. cbn [fs entered]. split; [done|]. split.
      * intros p Hp. by rewrite lookup_insert_ne.
      * split; [discriminate|]. intros ? [= <-]. right.
        eexists _, _, _. split; [exact Henc|]. by rewrite lookup_insert_eq.
    + intros [= <- <-]. repeat split; try done. intros ? [= <-]. by left.
  - intros [= <- <-]. repeat split; try done. intros ? [= <-]. by left.
Qed.

End PaletteMore.

(** ** Paths *)

Section PathsMore.

Local Abbreviation chars := String.list_ascii_of_string.

Lemma pretty_N_go_numeral x :
  ∀ s, Forall numeral (chars s) →
       Forall numeral (chars (pretty_N_go x s)).
Proof.
  induction (N.lt_wf_0 x) as [x _ IH]; intros s Hs.
  assert (x = 0 ∨ 0 < x)%N as [->|Hpos] by lia.
  - by rewrite pretty_N_go_0.
  - rewrite pretty_N_go_step by done. apply IH; [by apply N.div_lt|].
    cbn [String.list_ascii_of_string]. constructor; [|done]. right. by eexists.
Qed.

Lemma pretty_N_numeral (x : N) :
  Forall numeral (chars (pretty x)).
Proof.
  unfold pretty, pretty_N. destruct (decide (x = 0%N)).
  - cbn [String.list_ascii_of_string]. constructor; [|constructor].
    right. by exists 0%N.
  - apply pretty_N_go_numeral. constructor.
Qed.

Lemma pretty_Z_numeral (z : Z) :
  Forall numeral (chars (pretty z)).
Proof.
  destruct z as [|x|x].
  - cbn [String.list_ascii_of_string]. constructor; [|constructor].
    right. by exists 0%N.
  - apply (pretty_N_numeral (Npos x)).
  - change (pretty (Z.neg x)) with ("-" +:+ pretty (N.pos x)).
    cbn [String.list_ascii_of_string]. rewrite append_cons.
    cbn [String.list_ascii_of_string]. constructor; [by left|].
    apply (pretty_N_numeral (Npos x)).
Qed.

Lemma letter_not_numeral (c : ascii) :
  c = "f"%char ∨ c = "c"%char → ¬ numeral c.
Proof.
  intros Hc [->|[x ->]]; [by destruct Hc|].
  unfold pretty_N_char in Hc. repeat case_match; by destruct Hc.
Qed.

(** Two strings of numerals followed by the same letter: the numerals end
    where the letter stands. *)
Lemma numeral_prefix_inj (c : ascii) (s1 s2 r1 r2 : string) :
  ¬ numeral c →
  Forall numeral (chars s1) →
  Forall numeral (chars s2) →
  s1 +:+ String c r1 = s2 +:+ String c r2 →
  s1 = s2 ∧ r1 = r2.
Proof.
  intros Hc. revert s2.
  induction s1 as [|a s1 IH]; intros [|b s2] H1 H2 Heq.
  - by injection Heq as ->.
  - rewrite append_cons in Heq. injection Heq as <- _.
    apply Forall_cons in H2 as [? _]. done.
  - rewrite append_cons in Heq. injection Heq as -> _.
    apply Forall_cons in H1 as [? _]. done.
  - rewrite !append_cons in Heq. injection Heq as -> Heq.
    cbn [String.list_ascii_of_string] in H1, H2.
    apply Forall_cons in H1 as [_ H1]. apply Forall_cons in H2 as [_ H2].
    destruct (IH s2 H1 H2 Heq) as [-> ->]. done.
Qed.

(** The name of a temporary file tells the state it was made in. *)
Lemma temp_path_inj output_path (state state' : Z * Z) :
  temp_path output_path state = temp_path output_path state' →
  state = state'.
Proof.
  destruct state as [skip_factor colors], state' as [skip_factor' colors'].
  intros Heq. apply (f_equal name) in Heq. cbn [temp_path name fst snd] in Heq.
  apply (inj _) in Heq. unfold temp_suffix in Heq.
  apply (inj _) in Heq.
  change ("f" +:+ ?r) with (String "f" r) in Heq.
  apply numeral_prefix_inj in Heq as [Hskip Heq];
    [|apply letter_not_numeral; by left|apply pretty_Z_numeral..].
  change ("c.gif") with (String "c" ".gif") in Heq.
  apply numeral_prefix_inj in Heq as [Hcolors _];
    [|apply letter_not_numeral; by right|apply pretty_Z_numeral..].
  apply (inj _) in Hskip. apply (inj _) in Hcolors. congruence.
Qed.

Lemma schedule_inj (i j : nat) : schedule i = schedule j → i = j.
Proof. unfold schedule. intros [= Hskip _]. lia. Qed.

(** X12: the temporary file of an iteration.  Its name tells the state
    [(skip_factor, colors)] it was made in, so two steps of the schedule
    never share a temporary file; it lies in the directory of the output
    path and is never the output path itself. *)
Theorem temp_paths_distinct output_path (i j : nat) state :
  (temp_path output_path state = temp_path output_path (schedule i)
   ↔ state = schedule i)
  ∧ (temp_path output_path (schedule i) = temp_path output_path (schedule j)
     ↔ i = j)
  ∧ parents (temp_path output_path state) = parents output_path
  ∧ temp_path output_path state ≠ output_path.
Proof.
  split; [|split; [|split]].
  - split; [apply temp_path_inj|by intros ->].
  - split; [|by intros ->]. intros Heq. by apply temp_path_inj, schedule_inj in Heq.
  - done.
  - apply temp_path_not_output.
Qed.

End PathsMore.

Section PathsDefault.

Lemma rsplit_dot_gif (stem : string) :
  Str.rsplit_dot (stem +:+ ".gif") = Some (stem, ".gif"%string).
Proof.
  induction stem as [|c stem IH]; [reflexivity|].
  rewrite append_cons. cbn [Str.rsplit_dot]. by rewrite IH.
Qed.

Lemma split_suffix_gif (stem : string) :
  stem ≠ EmptyString →
  split_suffix (stem +:+ ".gif") = (stem, ".gif"%string).
Proof.
  intros Hstem. unfold split_suffix. rewrite rsplit_dot_gif.
  by destruct stem.
Qed.

Lemma stem_not_empty (name : string) :
  name ≠ EmptyString → fst (split_suffix name) ≠ EmptyString.
Proof.
  intros Hname. unfold split_suffix.
  destruct (Str.rsplit_dot name) as [[[|c before] [|dot [|c' ext]]]|]; done.
Qed.

(** X16: the default output path of line 167, [input.with_suffix(".gif")],
    for an input path with a name.  It lies beside the input, carries the
    input's name with the last suffix replaced by [.gif], is a fixed point
    of [with_suffix(".gif")], and is the input path itself exactly when the
    input's suffix is [.gif] already; the temporary files of the search are
    named after the input's stem. *)
Theorem default_output_path (input : Path) :
  name input ≠ EmptyString →
  ∃ output_path,
    with_suffix input ".gif" = Ok output_path
    ∧ parents output_path = parents input
    ∧ name output_path = (split_suffix (name input)).1 +:+ ".gif"
    ∧ with_suffix output_path ".gif" = Ok output_path
    ∧ (output_path = input ↔ (split_suffix (name input)).2 = ".gif"%string)
    ∧ ∀ state, temp_path output_path state = temp_path input state.
Proof.
  intros Hname. pose proof (stem_not_empty _ Hname) as Hstem.
  assert (∀ p, name p ≠ EmptyString →
               with_suffix p ".gif"
               = Ok {| parents := parents p;
                       name := (split_suffix (name p)).1 +:+ ".gif" |})
    as Hwith.
  { intros p Hp. unfold with_suffix. cbn.
    by destruct (decide (name p = EmptyString)). }
  eexists. split; [by apply Hwith|]. cbn [parents name].
  split; [done|]. split; [done|]. split; [|split].
  - rewrite Hwith; cbn [parents name].
    + by rewrite split_suffix_gif.
    + intros Heq. by destruct (split_suffix (name input)).1.
  - destruct (split_suffix_spec (name input)) as [Hparts _].
    split.
    + intros Heq. apply (f_equal name) in Heq. cbn [name] in Heq.
      rewrite Hparts in Heq at 2. by apply (inj _) in Heq.
    + intros Heq. destruct input as [dirs file]. cbn [parents name] in *.
      f_equal. by rewrite Hparts at 2; rewrite Heq.
  - intros state. unfold temp_path. cbn [parents name].
    by rewrite split_suffix_gif.
Qed.

End PathsDefault.


(** ** Size-constrained search *)

Section SearchMore.

Context {pillow : Pillow}.
Variables (animation : Animation) (output_path : Path).
Variables (alpha_threshold : Z).

(** The output path is not among the temporary paths, so purging them
    leaves it alone. *)
Lemma lookup_output_purged (steps : list nat) (m : gmap Path bytes) :
  purge (temp_path output_path ∘ schedule <$> steps) m !! output_path
  = m !! output_path.
Proof.
  rewrite lookup_purge, decide_False; [done|].
  intros (i & Heq & _)%list_elem_of_fmap.
  by apply (temp_path_not_output output_path (schedule i)).
Qed.

(** What [settle] leaves at the output path. *)
Lemma settle_output target_size_bytes rejected ending w :
  fs (settle output_path target_size_bytes rejected ending w).2 !! output_path
  = match ending with
    | Promoted _ content => Some content
    | _ => fs w !! output_path
    end.
Proof.
  unfold settle.
  destruct ending as [|i content|i e [partial|]]; cbn [snd fs].
  - apply lookup_output_purged.
  - apply lookup_insert_eq.
  - rewrite lookup_insert_ne by apply temp_path_not_output.
    apply lookup_output_purged.
  - apply lookup_output_purged.
Qed.

(** With an output path without a name the loop stops in its first
    iteration, or before it when there is no frame. *)
Lemma search_unnamed target_size_bytes fuel skip_factor colors w :
  name output_path = EmptyString →
  search animation output_path target_size_bytes alpha_threshold
    (S fuel) skip_factor colors w
  = Some
      (if (skip_factor <=? Py.len (frames animation)) && (64 <=? colors)
       then (Raise (ValueError_path "has an empty name"),
             {| fs := fs w; entered := entered w ++ [(skip_factor, colors)] |})
       else (Raise (budget_unreachable target_size_bytes), w)).
Proof.
  intros Hname. cbn [search].
  destruct ((skip_factor <=? Py.len (frames animation)) && (64 <=? colors));
    [|done].
  by rewrite search_unnamed_output.
Qed.

(** X9: [compress_to_target_size] terminates on every input (the fuel of
    one unit per frame is enough, with or without a name in the output
    path, with or without frames), and when it raises, whatever the
    exception, the output path holds what it held before the call: the
    output is written by the final rename only. *)
Theorem failure_keeps_output target_size_bytes min_resolution w :
  ∃ r w',
    compress_to_target_size animation output_path target_size_bytes
      alpha_threshold min_resolution w = Some (r, w')
    ∧ ∀ e, r = Raise e → fs w' !! output_path = fs w !! output_path.
Proof.
  unfold compress_to_target_size.
  destruct (Z.ltb_spec (fst (size animation)) min_resolution) as [|Hw];
    [by eexists _, _|].
  destruct (Z.ltb_spec (snd (size animation)) min_resolution) as [|Hh];
    [by eexists _, _|].
  cbn [orb]. destruct (decide (name output_path = EmptyString)) as [Hname|Hname].
  - destruct (frames animation) as [|first rest] eqn:Hframes.
    + cbn [length search]. unfold Py.len. rewrite Hframes. cbn.
      by eexists _, _.
    + cbn [length]. rewrite search_unnamed by done.
      destruct (_ && _); by eexists _, _.
  - destruct (compress_run animation output_path target_size_bytes
                alpha_threshold min_resolution w Hw Hh Hname)
      as (k & ending & _ & Hrun & Hcompress).
    unfold compress_to_target_size in Hcompress.
    destruct (Z.ltb_spec (fst (size animation)) min_resolution); [lia|].
    destruct (Z.ltb_spec (snd (size animation)) min_resolution); [lia|].
    cbn [orb] in Hcompress. rewrite Hcompress.
    destruct (settle output_path target_size_bytes (seq 0 k) ending w)
      as [r w'] eqn:Hsettle.
    exists r, w'. split; [done|]. intros e ->.
    pose proof (settle_output target_size_bytes (seq 0 k) ending w) as Hout.
    rewrite Hsettle in Hout. cbn [snd] in Hout. rewrite Hout.
    destruct ending as [|i content|i e' residue]; done.
Qed.

(** X10: the search is monotone in its budget.  If it succeeds for a
    target size, it succeeds for every larger one, and enters no more
    iterations than before. *)
Theorem larger_budget_succeeds_no_later
    (target target' : Z) min_resolution w path w1 :
  target ≤ target' →
  compress_to_target_size animation output_path target alpha_threshold
    min_resolution w = Some (Ok path, w1) →
  ∃ w2,
    compress_to_target_size animation output_path target' alpha_threshold
      min_resolution w = Some (Ok path, w2)
    ∧ (length (entered w2) ≤ length (entered w1))%nat.
Proof.
  intros Hle Hrun1.
  assert (min_resolution ≤ fst (size animation)
          ∧ min_resolution ≤ snd (size animation)) as [Hw Hh].
  { unfold compress_to_target_size in Hrun1.
    destruct (Z.ltb_spec (fst (size animation)) min_resolution); [done|].
    destruct (Z.ltb_spec (snd (size animation)) min_resolution); [done|].
    done. }
  assert (name output_path ≠ EmptyString) as Hname.
  { intros Hname. unfold compress_to_target_size in Hrun1.
    destruct (_ || _); [done|].
    destruct (frames animation) as [|first rest] eqn:Hframes.
    - cbn [length search] in Hrun1. unfold Py.len in Hrun1.
      rewrite Hframes in Hrun1. cbn in Hrun1. done.
    - cbn [length] in Hrun1. rewrite search_unnamed in Hrun1 by done.
      by destruct (_ && _). }
  destruct (compress_run animation output_path target alpha_threshold
              min_resolution w Hw Hh Hname)
    as (k & ending & Hrej & Hend & Heq).
  rewrite Hrun1 in Heq.
  destruct (compress_run animation output_path target' alpha_threshold
              min_resolution w Hw Hh Hname)
    as (k' & ending' & Hrej' & Hend' & ->).
  destruct Hend as [->|content Hk Henc Hfit|e residue Hk Henc];
    [discriminate| |by destruct residue].
  cbn [settle] in Heq. injection Heq as -> ->. cbn [entered].
  assert (k' ≤ k)%nat as Hkk.
  { destruct (decide (k' ≤ k)%nat) as [|Hgt]; [done|].
    destruct (Hrej' k ltac:(lia)) as (content' & Henc' & Hover).
    rewrite Henc in Henc'. injection Henc' as <-. lia. }
  assert (∀ e residue,
            attempt animation alpha_threshold (schedule k')
            ≠ SaveFailed e residue) as Hsaved.
  { intros e residue Hfail.
    destruct (decide (k' = k)) as [->|]; [congruence|].
    destruct (Hrej k' ltac:(lia)) as (c & Hc & _). congruence. }
  destruct Hend' as [->|content' Hk' Henc' Hfit'|e residue Hk' Henc'].
  - lia.
  - cbn [settle]. eexists. split; [reflexivity|]. cbn [entered].
    rewrite !length_app, !length_fmap, !length_seq. cbn [length]. lia.
  - by destruct (Hsaved e residue).
Qed.

(** X11: an animation without frames that passes the resolution test never
    enters the loop: it gets what line 142 raises (the RuntimeError, for a
    budget below [2 ** 1044 - 2 ** 990] in magnitude) with nothing entered
    and nothing written. *)
Theorem degenerate_inputs target_size_bytes min_resolution w :
  min_resolution ≤ fst (size animation) →
  min_resolution ≤ snd (size animation) →
  frames animation = [] →
  compress_to_target_size animation output_path target_size_bytes
    alpha_threshold min_resolution w
  = Some (Raise (budget_unreachable target_size_bytes), w)
  ∧ (Z.abs target_size_bytes < 2 ^ 1044 - 2 ^ 990 →
     budget_unreachable target_size_bytes = RuntimeError_could_not_compress)
  ∧ (2 ^ 1044 - 2 ^ 990 ≤ Z.abs target_size_bytes →
     budget_unreachable target_size_bytes = OverflowError).
Proof.
  intros Hw Hh Hnone. unfold compress_to_target_size.
  destruct (Z.ltb_spec (fst (size animation)) min_resolution); [lia|].
  destruct (Z.ltb_spec (snd (size animation)) min_resolution); [lia|].
  cbn [orb]. split; [|apply budget_unreachable_cases].
  rewrite Hnone. cbn [length search]. unfold Py.len. by rewrite Hnone.
Qed.

(** X23: with frames and an output path that has no name, the first call
    of [with_suffix] (line 116) raises pathlib's ValueError in the first
    iteration, before anything is encoded or written. *)
Theorem unnamed_output_fails_first target_size_bytes min_resolution w :
  min_resolution ≤ fst (size animation) →
  min_resolution ≤ snd (size animation) →
  frames animation ≠ [] →
  name output_path = EmptyString →
  compress_to_target_size animation output_path target_size_bytes
    alpha_threshold min_resolution w
  = Some (Raise (ValueError_path "has an empty name"),
          {| fs := fs w; entered := entered w ++ [(1, 256)] |}).
Proof.
  intros Hw Hh Hsome Hname. unfold compress_to_target_size.
  destruct (Z.ltb_spec (fst (size animation)) min_resolution); [lia|].
  destruct (Z.ltb_spec (snd (size animation)) min_resolution); [lia|].
  cbn [orb].
  destruct (frames animation) as [|first rest] eqn:Hframes; [done|].
  cbn [length]. rewrite search_unnamed by done.
  unfold Py.len. rewrite Hframes. cbn [length].
  destruct (Z.leb_spec 1 (Z.of_nat (S (length rest)))); [done|lia].
Qed.

End SearchMore.

Section SearchCandidates.

Context {pillow : Pillow}.
Variables (animation : Animation).

(** X13: every candidate the loop builds is a well-formed animation when
    the input has one duration per frame.  The candidate of step [i] has
    one duration per frame, starts with the first frame of the input (so
    every candidate takes its palette from that same frame), and has the
    size of that frame and the loop count of the input; when the durations
    are ints it plays exactly as long as the input.  No candidate is built
    only when a sum of durations has raised its OverflowError, which takes
    an int too large for a float among durations that are not all ints. *)
Theorem candidate_wellformed (i : nat) :
  length (durations animation) = length (frames animation) →
  (i < length (frames animation))%nat →
  match candidate animation (schedule i).1 with
  | Ok compressed_anim =>
      length (durations compressed_anim) = length (frames compressed_anim)
      ∧ frames compressed_anim !! 0%nat = frames animation !! 0%nat
      ∧ Some (size compressed_anim) = frame_size <$> frames animation !! 0%nat
      ∧ loop compressed_anim = loop animation
      ∧ ∀ zs : list Z,
          durations animation = Py.Int <$> zs →
          Py.sum (durations compressed_anim) = Ok (Py.Int (total zs))
          ∧ Py.sum (durations animation) = Ok (Py.Int (total zs))
  | Raise e =>
      e = OverflowError
      ∧ Py.float_limit ≤ int_mass (durations animation)
      ∧ ∀ zs : list Z, durations animation ≠ Py.Int <$> zs
  end.
Proof.
  intros Hpaired Hi. unfold candidate. cbn [schedule fst].
  destruct (Z.ltb_spec 1 (1 + Z.of_nat i)) as [Hskip|Hone].
  - set (k := 1 + Z.of_nat i) in *.
    assert (1 ≤ k) as Hk by lia.
    pose proof (reduce_frames_outcome (frames animation) (durations animation)
                  k Hk) as Hout.
    destruct (reduce_frames (frames animation) (durations animation) k)
      as [[processed_frames processed_durations]|e] eqn:Hreduce.
    + destruct Hout as [-> Hcount]. cbn [mbind result_bind].
      destruct (kept_frames_spec (frames animation) k Hk) as [Hkept Hlook].
      pose proof (ceil_div_spec (Py.len (frames animation)) k ltac:(lia))
        as Hceil.
      specialize (Hlook 0%nat). cbn [Nat.mul] in Hlook.
      destruct (kept_frames (frames animation) k) as [|first kept] eqn:Hframes.
      { unfold Py.len in *. cbn [length] in Hkept. nia. }
      cbn [Py.head mbind result_bind frames durations loop size].
      split; [|split; [done|split; [by rewrite <- Hlook|split; [done|]]]].
      * unfold Py.len in *. rewrite Hpaired in Hcount. lia.
      * intros zs Hints. rewrite Hints in Hreduce |- *.
        rewrite reduce_frames_ints in Hreduce by done.
        injection Hreduce as _ <-. rewrite !sum_ints.
        split; [|done]. do 2 f_equal. apply groups_sum.
        pose proof (groups_cover (Py.len zs) k ltac:(unfold Py.len; lia) Hk).
        unfold Py.len in *. lia.
    + cbn [mbind result_bind]. split; [done|]. split.
      * destruct (Z.le_gt_cases Py.float_limit (int_mass (durations animation)))
          as [|Hlight]; [done|].
        destruct (reduce_frames_light (frames animation) (durations animation)
                    k Hk ltac:(lia)) as [reduced_durations Hok].
        congruence.
      * intros zs Hints. rewrite Hints, reduce_frames_ints in Hreduce by done.
        discriminate.
  - destruct (frames animation) as [|first rest] eqn:Hframes;
      [cbn [length] in Hi; lia|].
    cbn [mbind result_bind Py.head frames durations loop size].
    split; [done|]. split; [done|]. split; [done|]. split; [done|].
    intros zs ->. by rewrite sum_ints.
Qed.

End SearchCandidates.

Section Quantizing.

Context {pillow : Pillow}.

(** The palette builder does not raise for a palette size Pillow accepts
    when the first frame has a pixel: the median cut then has a colour, so
    the later frames have a colour table to be mapped onto. *)
Lemma paletted_frames_accepts animation N t first later :
  2 ≤ N ≤ 257 →
  frames animation = first :: later →
  frame_data first ≠ [] →
  ∃ p_first rest, paletted_frames animation N t = Ok (p_first :: rest).
Proof.
  intros HN Hframes Hpixel. rewrite paletted_frames_eq, Hframes.
  destruct (mediancut_accepts (merge_rgb first) (N - 1) ltac:(lia))
    as [palette_img Hcut].
  rewrite Hcut. cbn [mbind result_bind].
  destruct (mediancut_indexes _ _ _ Hcut) as [_ Hidx].
  destruct (overwritten_spec N t first palette_img Hidx)
    as (p_first & -> & _).
  assert (p_palette palette_img ≠ []) as Hcolour.
  { destruct Hidx as (_ & Hlen & Hrange). rewrite length_merge_rgb in Hlen.
    destruct (p_data palette_img) as [|ix data];
      [by destruct (frame_data first)|].
    apply Forall_cons in Hrange as [Hix _]. intros Hnone.
    rewrite Hnone in Hix. unfold Py.len in Hix. cbn in Hix. lia. }
  destruct (mapM_Ok_intro
              (fun frame =>
                 q ← quantize_palette (merge_rgb frame) (p_palette palette_img);
                 overwritten N t frame q) later) as [rest Hrest].
  { intros frame _.
    destruct (palette_accepts (merge_rgb frame) _ Hcolour) as [q Hq].
    rewrite Hq. cbn [mbind result_bind].
    apply palette_indexes in Hq as [_ Hqidx].
    destruct (overwritten_spec N t frame q Hqidx) as (p_frame & -> & _).
    by eexists. }
  rewrite Hrest. by eexists _, _.
Qed.

Variables (animation : Animation).

Variables (output_path : Path) (target_size_bytes alpha_threshold : Z).


End Quantizing.

Section Converting.

Context {pillow : Pillow}.

(** X15: [load_animation] followed by [compress_to_target_size], as [main]
    calls them (lines 169-179).  The search returns or raises; the
    resolution test looks at the size of the first frame only, and when it
    passes the loop is entered: the log of iterations starts with
    [(1, 256)], so a loaded animation never gets the RuntimeError of line
    142 straight away, as an animation without frames does. *)
Theorem loaded_animation_is_tried img animation output_path
    target_size_bytes alpha_threshold min_resolution w :
  load_animation img = Ok animation →
  ∃ first r w',
    converted <$> sequence img !! 0%nat = Some first
    ∧ compress_to_target_size animation output_path target_size_bytes
        alpha_threshold min_resolution w = Some (r, w')
    ∧ if ((frame_size first).1 <? min_resolution)
         || ((frame_size first).2 <? min_resolution)
      then r = Raise ValueError_resolution_below_minimum ∧ w' = w
      else ∃ later, entered w' = entered w ++ (1, 256) :: later.
Proof.
  unfold load_animation.
  destruct (decide (format img ≠ "PNG")); [discriminate|].
  destruct (decide (map converted (sequence img) = [])); [discriminate|].
  destruct (sequence img) as [|first_seq rest]; [done|].
  cbn [map Py.head mbind result_bind]. intros [= <-].
  exists (converted first_seq). cbn [fmap option_fmap option_map lookup list_lookup].
  unfold compress_to_target_size. cbn [size frames fst snd].
  destruct (_ || _) eqn:Hlow; [by eexists _, _|].
  apply orb_false_elim in Hlow as [Hw%Z.ltb_ge Hh%Z.ltb_ge].
  set (animation := {| frames := _ |}).
  destruct (decide (name output_path = EmptyString)) as [Hname|Hname].
  - cbn [length]. rewrite search_unnamed by done.
    unfold Py.len. cbn [frames animation length].
    destruct (Z.leb_spec 1 (Z.of_nat (S (length (map converted rest)))));
      [|lia].
    cbn [andb Z.leb]. eexists _, _. split; [done|]. split; [done|].
    by exists [].
  - destruct (compress_run animation output_path target_size_bytes
                alpha_threshold min_resolution w Hw Hh Hname)
      as (k & ending & _ & Hend & Heq).
    unfold compress_to_target_size in Heq.
    destruct (Z.ltb_spec (fst (size animation)) min_resolution);
      [cbn [animation size fst] in *; lia|].
    destruct (Z.ltb_spec (snd (size animation)) min_resolution);
      [cbn [animation size snd] in *; lia|].
    cbn [orb] in Heq. cbn [frames animation] in Heq. rewrite Heq.
    destruct (settle output_path target_size_bytes (seq 0 k) ending w) as [r w'] eqn:Hsettle.
    exists r, w'. split; [done|]. split; [done|].
    assert (entered w'
            = entered w ++ (schedule <$> seq 0 k)
              ++ match ending with Exhausted => [] | _ => [schedule k] end)
      as ->.
    { unfold settle in Hsettle.
      destruct Hend as [_|content _ _ _|e [partial|] _ _];
        injection Hsettle as _ <-; cbn [entered];
        by rewrite <- ?(assoc_L (++)), ?app_nil_r. }
    destruct Hend as [->|content _ _ _|e residue _ _].
    + cbn [animation frames length map seq fmap list_fmap]. by eexists.
    + destruct k; cbn [seq fmap list_fmap app]; by eexists.
    + destruct k; cbn [seq fmap list_fmap app]; by eexists.
Qed.

End Converting.

Section Reruns.

Context {pillow : Pillow}.

(** X20: [save_as_gif] reaches the encoder.  For a palette size from 2 to
    257 and an animation whose first frame has a pixel, quantization and
    the transparency overwrite raise nothing; the encoder is called once,
    with the first paletted frame, the others appended, the animation's
    durations and loop count, disposal 2 and transparency index [N - 1];
    the call returns the length of the file written, or raises what the
    encoder raised. *)
Theorem save_as_gif_reaches_encoder animation output_path N t w first :
  2 ≤ N ≤ 257 →
  frames animation !! 0%nat = Some first →
  frame_data first ≠ [] →
  ∃ p_first rest,
    paletted_frames animation N t = Ok (p_first :: rest)
    ∧ S (length rest) = length (frames animation)
    ∧ save_as_gif animation output_path N t w
      = match gif_encode p_first
                {| save_all := true;
                   append_images := rest;
                   duration := durations animation;
                   kw_loop := loop animation;
                   disposal := 2;
                   transparency := N - 1;
                   optimize := false |} with
        | Saved content =>
            (Ok (Py.len content),
             with_fs w (<[output_path := content]> (fs w)))
        | SaveFailed e None => (Raise e, w)
        | SaveFailed e (Some partial) =>
            (Raise e, with_fs w (<[output_path := partial]> (fs w)))
        end.
Proof.
  intros HN Hfirst Hpixel.
  destruct (frames animation) as [|first' later] eqn:Hframes; [done|].
  injection Hfirst as ->.
  destruct (paletted_frames_accepts animation N t first later HN Hframes Hpixel)
    as (p_first & rest & Hpal).
  exists p_first, rest. split; [done|]. split.
  - pose proof Hpal as Hinv.
    apply paletted_frames_inv in Hinv as (palette_img & _ & Hall).
    apply Forall2_length in Hall. rewrite Hframes in Hall.
    cbn [length] in Hall |- *. lia.
  - unfold save_as_gif. cbv [mbind M_bind lift]. rewrite Hpal.
    cbn [Py.head drop]. unfold image_save.
    destruct (gif_encode _ _) as [content|e [partial|]]; try reflexivity.
    unfold stat_size, with_fs. cbn [fs entered].
    by rewrite lookup_insert_eq.
Qed.

Variables (animation : Animation) (output_path : Path).
Variables (target_size_bytes alpha_threshold : Z).

(** There is one way for a run to end. *)
Lemma run_unique (k k' : nat) ending ending' :
  (∀ j, (j < k)%nat →
     over_budget animation target_size_bytes alpha_threshold j) →
  Run animation target_size_bytes alpha_threshold k ending →
  (∀ j, (j < k')%nat →
     over_budget animation target_size_bytes alpha_threshold j) →
  Run animation target_size_bytes alpha_threshold k' ending' →
  k = k' ∧ ending = ending'.
Proof.
  intros Hrej Hend Hrej' Hend'.
  assert (∀ a b ea eb,
            (∀ j, (j < b)%nat →
               over_budget animation target_size_bytes alpha_threshold j) →
            Run animation target_size_bytes alpha_threshold a ea →
            Run animation target_size_bytes alpha_threshold b eb →
            (a < b)%nat → False) as Hlt.
  { intros a b ea eb Hb Ha Hbrun Hab.
    destruct (Hb a Hab) as (content & Henc & Hover).
    assert (b ≤ length (frames animation))%nat
      by (destruct Hbrun; lia).
    destruct Ha as [->|content' _ Henc' Hfit|e residue _ Henc'];
      [lia| |congruence].
    rewrite Henc in Henc'. injection Henc' as <-. lia. }
  assert (k = k') as <-.
  { destruct (Nat.lt_trichotomy k k') as [?|[?|?]]; [|done|];
      exfalso; eauto. }
  split; [done|].
  destruct Hend as [Hk|content Hk Henc Hfit|e residue Hk Henc],
    Hend' as [Hk'|content' Hk' Henc' Hfit'|e' residue' Hk' Henc'];
    try done; try lia; congruence.
Qed.


(** Purging twice is purging once. *)
Lemma purge_purge paths (m : gmap Path bytes) :
  purge paths (purge paths m) = purge paths m.
Proof.
  apply map_eq. intros p. rewrite !lookup_purge.
  by destruct (decide (p ∈ paths)).
Qed.

(** X22: running the search again changes nothing.  After a run, whatever
    its result, a second run with the same arguments has the same result
    and leaves every file as the first run left it. *)
Theorem rerun_keeps_storage min_resolution w r w1 :
  compress_to_target_size animation output_path target_size_bytes
    alpha_threshold min_resolution w = Some (r, w1) →
  ∃ w2,
    compress_to_target_size animation output_path target_size_bytes
      alpha_threshold min_resolution w1 = Some (r, w2)
    ∧ fs w2 = fs w1.
Proof.
  unfold compress_to_target_size.
  destruct (_ || _) eqn:Hlow.
  { intros [= <- <-]. by exists w. }
  apply orb_false_elim in Hlow as [Hw%Z.ltb_ge Hh%Z.ltb_ge].
  destruct (decide (name output_path = EmptyString)) as [Hname|Hname].
  - destruct (frames animation) as [|first rest] eqn:Hframes.
    + cbn [length search]. unfold Py.len. rewrite Hframes. cbn.
      intros [= <- <-]. by exists w.
    + cbn [length]. rewrite !search_unnamed by done.
      destruct (_ && _); intros [= <- <-]; by eexists.
  - pose proof (compress_run animation output_path target_size_bytes
                  alpha_threshold min_resolution) as Hrun.
    unfold compress_to_target_size in Hrun.
    destruct (Z.ltb_spec (fst (size animation)) min_resolution); [lia|].
    destruct (Z.ltb_spec (snd (size animation)) min_resolution); [lia|].
    cbn [orb] in Hrun.
    destruct (Hrun w Hw Hh Hname) as (k & ending & Hrej & Hend & ->).
    destruct (Hrun w1 Hw Hh Hname) as (k' & ending' & Hrej' & Hend' & ->).
    destruct (run_unique k k' ending ending' Hrej Hend Hrej' Hend')
      as [<- <-].
    unfold settle.
    destruct ending as [|i content|i e [partial|]];
      intros [= <- <-]; cbn [fs]; eexists; (split; [reflexivity|]);
      cbn [fs].
    + apply purge_purge.
    + apply map_eq. intros p.
      destruct (decide (p = output_path)) as [->|Hout];
        [by rewrite !lookup_insert_eq|].
      rewrite !lookup_insert_ne by done.
      destruct (decide (p = temp_path output_path (schedule i))) as [->|Htemp];
        [by rewrite !lookup_delete_eq|].
      rewrite !lookup_delete_ne by done. rewrite !lookup_purge.
      destruct (decide (p ∈ _)) as [|Hkept]; [done|].
      rewrite lookup_insert_ne, lookup_delete_ne by done.
      rewrite lookup_purge. by rewrite decide_False.
    + apply map_eq. intros p.
      destruct (decide (p = temp_path output_path (schedule i))) as [->|Htemp];
        [by rewrite !lookup_insert_eq|].
      rewrite !lookup_insert_ne by done. rewrite !lookup_purge.
      destruct (decide (p ∈ _)) as [|Hkept]; [done|].
      rewrite lookup_insert_ne by done.
      rewrite lookup_purge. by rewrite decide_False.
    + apply purge_purge.
Qed.

End Reruns.

(** ** Resize and save *)

Lemma mapM_Raise_inv {A B} (f : A → result B) (l : list A) (e : exn) :
  mapM f l = Raise e →
  ∃ (i : nat) x,
    l !! i = Some x ∧ f x = Raise e
    ∧ ∀ (j : nat) y, (j < i)%nat → l !! j = Some y → ∃ b, f y = Ok b.
Proof.
  induction l as [|x l IH]; [discriminate|]. cbn [mapM].
  destruct (f x) as [b|e'] eqn:Hx.
  - cbn [mbind result_bind]. destruct (mapM f l) as [k|e'] eqn:Hl;
      [discriminate|].
    cbn [mbind result_bind]. intros [= ->].
    destruct (IH eq_refl) as (i & x' & Hi & Hraise & Hbefore).
    exists (S i), x'. split; [done|]. split; [done|].
    intros [|j] y Hj Hy.
    + injection Hy as <-. by exists b.
    + apply (Hbefore j); [lia|done].
  - cbn [mbind result_bind]. intros [= ->].
    exists 0%nat, x. split; [done|]. split; [done|]. intros; lia.
Qed.

Section Resizing.

Context {pillow : Pillow}.
Variable png_encode : Frame → PngKwargs → SaveResult.

(** X17: when [resize_animation] raises, the exception is the one Pillow
    raised for the first frame it refused to resize: the frames before that
    one were resized, and no later frame was looked at.  An animation
    without frames is never refused, whatever the target size. *)
Theorem resize_failure anim (target : Z * Z) e :
  resize_animation anim target = Raise e →
  ∃ (i : nat) frame,
    frames anim !! i = Some frame
    ∧ resize_lanczos frame target = Raise e
    ∧ ∀ (j : nat) earlier,
        (j < i)%nat → frames anim !! j = Some earlier →
        ∃ resized, resize_lanczos earlier target = Ok resized.
Proof.
  unfold resize_animation. intros Hraise.
  destruct (mapM _ (frames anim)) as [resized|e'] eqn:Hall; [discriminate|].
  injection Hraise as ->.
  apply mapM_Raise_inv in Hall as (i & frame & Hi & Hfail & Hbefore).
  by exists i, frame.
Qed.

(** X18: load, resize, save, as [main] of [image_resize.py] calls them
    (lines 113-115), for a positive size.  Once the animation is loaded,
    neither the resize nor the unpacking of line 60 raises; the encoder is
    called with as many frames as were loaded, all of the target size, with
    the loaded durations, one per frame, and the loaded loop count; only
    the output path is written. *)
Theorem resize_script_saves img anim (size : Z) output_path w :
  load_animation img = Ok anim →
  0 < size →
  ∃ first kwargs,
    Forall (fun frame => frame_size frame = (size, size))
           (first :: png_append_images kwargs)
    ∧ length (first :: png_append_images kwargs) = length (frames anim)
    ∧ png_duration kwargs = durations anim
    ∧ length (png_duration kwargs)
      = length (first :: png_append_images kwargs)
    ∧ png_loop kwargs = default 0 (info_loop img)
    ∧ resize_and_save png_encode img size output_path w
      = match png_encode first kwargs with
        | Saved content =>
            Past (Ok ()) (with_fs w (<[output_path := content]> (fs w)))
        | SaveFailed e None => Past (Raise e) w
        | SaveFailed e (Some partial) =>
            Past (Raise e) (with_fs w (<[output_path := partial]> (fs w)))
        end.
Proof.
  intros Hload Hsize. unfold resize_and_save, resize_animation.
  rewrite Hload.
  destruct (load_animation_frames _ _ Hload) as [Hsome Hpaired].
  destruct (mapM_Ok_intro
              (fun frame => resize_lanczos frame (size, size)) (frames anim))
    as [resized Hresized].
  { intros frame _. by apply resize_accepts. }
  rewrite Hresized. cbn [mbind result_bind].
  destruct (mapM_resize_spec _ _ _ Hresized) as [Hlen Hsizes].
  unfold save_animation. cbn [frames durations loop].
  destruct resized as [|first rest].
  { destruct (frames anim); [done|discriminate]. }
  eexists first, _. split; [|split; [|split; [|split; [|split]]]];
    [| | | | |reflexivity]; cbn [png_append_images png_duration png_loop].
  - done.
  - done.
  - done.
  - by rewrite Hpaired.
  - unfold load_animation in Hload.
    destruct (decide (format img ≠ "PNG")); [discriminate|].
    destruct (decide (map converted (sequence img) = [])); [discriminate|].
    destruct (map converted (sequence img)); [discriminate|].
    by injection Hload as <-.
Qed.

(** X19: [save_animation] after [resize_animation] fails at the unpacking
    of line 60 exactly when the animation that was resized had no
    frame. *)
Theorem save_animation_unpack anim target resized output_path w :
  resize_animation anim target = Ok resized →
  save_animation png_encode resized output_path w = UnpackError
  ↔ frames anim = [].
Proof.
  unfold resize_animation. intros Hresize.
  apply bind_Ok_inv in Hresize as (frames' & Hall & [= <-]).
  apply mapM_resize_spec in Hall as [Hlen _].
  unfold save_animation. cbn [frames durations loop].
  destruct frames' as [|first rest], (frames anim) as [|frame later];
    try discriminate.
  - done.
  - split; [|done]. by destruct (png_encode _ _) as [|? [|]].
Qed.

End Resizing.

(** *** Witnesses *)

Lemma reduce_frames_identity_witness :
  reduce_frames (replicate 7 (sample_frame 10)) durations_30fps 1
  = Ok (replicate 7 (sample_frame 10), durations_30fps).
Proof.
  apply (reduce_frames_identity (replicate 7 (sample_frame 10)) durations_30fps).
  apply Forall_replicate. discriminate.
Defined.

Lemma reduce_frames_compose_witness :
  (∀ frames3 durations3,
     reduce_frames [0; 1; 2; 3; 4; 5; 6]
       (Py.Int <$> [10; 20; 30; 40; 50; 60; 70]) (2 * 3)
     = Ok (frames3, durations3) →
     frames3 = [0; 6])
  ∧ (∀ zs : list Z,
       Py.Int <$> [10; 20; 30; 40; 50; 60; 70] = Py.Int <$> zs →
       reduce_frames [0; 1; 2; 3; 4; 5; 6]
         (Py.Int <$> [10; 20; 30; 40; 50; 60; 70]) (2 * 3)
       = Ok ([0; 6], Py.Int <$> [210; 70])).
Proof.
  apply (reduce_frames_compose
           [0; 1; 2; 3; 4; 5; 6] (Py.Int <$> [10; 20; 30; 40; 50; 60; 70]) 2 3
           [0; 2; 4; 6] (Py.Int <$> [30; 70; 110; 70])).
  - lia.
  - lia.
  - reflexivity.
  - reflexivity.
Defined.

Lemma reduce_frames_nonpositive_witness :
  (-2 = 0
   ∧ reduce_frames [0; 1; 2; 3; 4] (Py.Int <$> [10; 20; 30; 40; 50]) (-2)
     = Raise ValueError_zero_step)
  ∨ (-2 < 0
     ∧ ∃ reduced_frames,
         reduce_frames [0; 1; 2; 3; 4] (Py.Int <$> [10; 20; 30; 40; 50]) (-2)
         = Ok (reduced_frames, [])
         ∧ Py.len reduced_frames = ceil_div (Py.len [0; 1; 2; 3; 4]) (- -2)
         ∧ ∀ j : nat,
             (j < length reduced_frames)%nat →
             reduced_frames !! j
             = [0; 1; 2; 3; 4]
               !! (length [0; 1; 2; 3; 4] - 1 - j * Z.to_nat (- -2))%nat).
Proof.
  apply (reduce_frames_nonpositive [0; 1; 2; 3; 4] (Py.Int <$> [10; 20; 30; 40; 50]) (-2)).
  lia.
Defined.

Lemma reduce_frames_keeps_timestamps_witness :
  [0; 3; 6] !! 2%nat = [0; 1; 2; 3; 4; 5; 6] !! (2 * Z.to_nat 3)%nat
  ∧ ∀ zs : list Z,
      Py.Int <$> [10; 20; 30; 40; 50; 60; 70] = Py.Int <$> zs →
      ∃ t, Py.sum (take 2 (Py.Int <$> [60; 150; 70])) = Ok t
           ∧ Py.sum (take (2 * Z.to_nat 3)
                          (Py.Int <$> [10; 20; 30; 40; 50; 60; 70])) = Ok t.
Proof.
  apply (reduce_frames_keeps_timestamps
           [0; 1; 2; 3; 4; 5; 6] (Py.Int <$> [10; 20; 30; 40; 50; 60; 70]) 3
           [0; 3; 6] (Py.Int <$> [60; 150; 70]) 2).
  - lia.
  - reflexivity.
  - simpl. lia.
Defined.

Lemma paletted_frames_shape_witness :
  length (sample_paletted 10) = length (frames sample_animation)
  ∧ ∀ (i : nat) frame p_frame,
      frames sample_animation !! i = Some frame →
      sample_paletted 10 !! i = Some p_frame →
      p_size p_frame = frame_size frame
      ∧ length (p_data p_frame) = length (frame_data frame)
      ∧ Forall (fun ix => 0 ≤ ix ≤ 4 - 1) (p_data p_frame)
      ∧ Py.len (p_palette p_frame) ≤ 4 - 1.
Proof.
  apply (paletted_frames_shape (pillow := toy_pillow toy_encode)
           sample_animation 4 10 (sample_paletted 10)).
  - lia.
  - reflexivity.
Defined.

Lemma threshold_monotone_witness :
  ∃ p_frames',
    paletted_frames (pillow := toy_pillow toy_encode) sample_animation 4 11
    = Ok p_frames'
    ∧ ∀ (i j : nat) p_frame ix,
        sample_paletted 10 !! i = Some p_frame →
        p_data p_frame !! j = Some ix →
        ∃ p_frame' ix',
          p_frames' !! i = Some p_frame'
          ∧ p_data p_frame' !! j = Some ix'
          ∧ (ix = 4 - 1 → ix' = 4 - 1)
          ∧ (ix' ≠ 4 - 1 → ix' = ix).
Proof.
  apply (threshold_monotone (pillow := toy_pillow toy_encode)
           sample_animation 4 10 11 (sample_paletted 10)).
  - lia.
  - lia.
  - reflexivity.
Defined.

Lemma save_as_gif_storage_witness :
  entered {| fs := {[sample_output := replicate 7 x00]}; entered := [] |}
  = entered empty_world
  ∧ (∀ p, p ≠ sample_output →
          fs {| fs := {[sample_output := replicate 7 x00]}; entered := [] |} !! p
          = fs empty_world !! p)
  ∧ (∀ file_size, Ok 7 = Ok file_size →
       ∃ content,
         fs {| fs := {[sample_output := replicate 7 x00]}; entered := [] |}
           !! sample_output = Some content
         ∧ file_size = Py.len content)
  ∧ (∀ e, Ok 7 = Raise e →
       fs {| fs := {[sample_output := replicate 7 x00]}; entered := [] |}
       = fs empty_world
       ∨ ∃ image kwargs partial,
           gif_encode (Pillow := toy_pillow toy_encode) image kwargs
           = SaveFailed e (Some partial)
           ∧ fs {| fs := {[sample_output := replicate 7 x00]}; entered := [] |}
               !! sample_output = Some partial).
Proof.
  apply (save_as_gif_storage (pillow := toy_pillow toy_encode)
           single_frame sample_output 4 10 empty_world).
  vm_compute. reflexivity.
Defined.

Lemma larger_budget_succeeds_no_later_witness :
  ∃ w2,
    compress_to_target_size (pillow := toy_pillow toy_encode)
      single_frame sample_output 1000 10 2 empty_world
    = Some (Ok sample_output, w2)
    ∧ (length (entered w2) ≤ 1)%nat.
Proof.
  apply (larger_budget_succeeds_no_later (pillow := toy_pillow toy_encode)
           single_frame sample_output 10 300 1000 2 empty_world sample_output
           {| fs := {[sample_output := replicate 259 x00]};
              entered := [(1, 256)] |}).
  - lia.
  - vm_compute. reflexivity.
Defined.

Lemma degenerate_inputs_witness :
  compress_to_target_size (pillow := toy_pillow toy_encode)
    no_frames sample_output (2 ^ 1044) 10 2 empty_world
  = Some (Raise (budget_unreachable (2 ^ 1044)), empty_world)
  ∧ (Z.abs (2 ^ 1044) < 2 ^ 1044 - 2 ^ 990 →
     budget_unreachable (2 ^ 1044) = RuntimeError_could_not_compress)
  ∧ (2 ^ 1044 - 2 ^ 990 ≤ Z.abs (2 ^ 1044) →
     budget_unreachable (2 ^ 1044) = OverflowError).
Proof.
  apply (degenerate_inputs (pillow := toy_pillow toy_encode)
           no_frames sample_output 10 (2 ^ 1044) 2 empty_world).
  - simpl. lia.
  - simpl. lia.
  - reflexivity.
Defined.

Lemma unnamed_output_fails_first_witness :
  compress_to_target_size (pillow := toy_pillow toy_encode)
    sample_animation {| parents := ["out"]; name := EmptyString |}
    200 10 2 empty_world
  = Some (Raise (ValueError_path "has an empty name"),
          {| fs := fs empty_world;
             entered := entered empty_world ++ [(1, 256)] |}).
Proof.
  apply (unnamed_output_fails_first (pillow := toy_pillow toy_encode)
           sample_animation {| parents := ["out"]; name := EmptyString |}
           10 200 2 empty_world).
  - simpl. lia.
  - simpl. lia.
  - discriminate.
  - reflexivity.
Defined.

Lemma candidate_wellformed_witness :
  match candidate sample_animation (schedule 1).1 with
  | Ok compressed_anim =>
      length (durations compressed_anim) = length (frames compressed_anim)
      ∧ frames compressed_anim !! 0%nat = frames sample_animation !! 0%nat
      ∧ Some (size compressed_anim)
        = frame_size <$> frames sample_animation !! 0%nat
      ∧ loop compressed_anim = loop sample_animation
      ∧ ∀ zs : list Z,
          durations sample_animation = Py.Int <$> zs →
          Py.sum (durations compressed_anim) = Ok (Py.Int (total zs))
          ∧ Py.sum (durations sample_animation) = Ok (Py.Int (total zs))
  | Raise e =>
      e = OverflowError
      ∧ Py.float_limit ≤ int_mass (durations sample_animation)
      ∧ ∀ zs : list Z, durations sample_animation ≠ Py.Int <$> zs
  end.
Proof.
  apply (candidate_wellformed sample_animation 1).
  - reflexivity.
  - simpl. lia.
Defined.


Lemma loaded_animation_is_tried_witness :
  ∃ first r w',
    converted <$> sequence sample_image !! 0%nat = Some first
    ∧ compress_to_target_size (pillow := toy_pillow toy_encode)
        {| frames := [sample_frame 10; sample_frame 20];
           durations := [duration_30fps; duration_30fps]; loop := 0; size := (2, 2) |}
        sample_output 200 10 2 empty_world = Some (r, w')
    ∧ if ((frame_size first).1 <? 2) || ((frame_size first).2 <? 2)
      then r = Raise ValueError_resolution_below_minimum ∧ w' = empty_world
      else ∃ later, entered w' = entered empty_world ++ (1, 256) :: later.
Proof.
  apply (loaded_animation_is_tried (pillow := toy_pillow toy_encode)
           sample_image _ sample_output 200 10 2 empty_world).
  reflexivity.
Defined.

Lemma default_output_path_witness :
  ∃ output_path,
    with_suffix sample_input ".gif" = Ok output_path
    ∧ parents output_path = parents sample_input
    ∧ name output_path = (split_suffix (name sample_input)).1 +:+ ".gif"
    ∧ with_suffix output_path ".gif" = Ok output_path
    ∧ (output_path = sample_input
       ↔ (split_suffix (name sample_input)).2 = ".gif"%string)
    ∧ ∀ state, temp_path output_path state = temp_path sample_input state.
Proof.
  apply (default_output_path sample_input).
  discriminate.
Defined.

Lemma resize_failure_witness :
  ∃ (i : nat) frame,
    frames sample_animation !! i = Some frame
    ∧ resize_lanczos (Pillow := toy_pillow toy_encode) frame (0, 5)
      = Raise (PillowError "height and width must be > 0")
    ∧ ∀ (j : nat) earlier,
        (j < i)%nat → frames sample_animation !! j = Some earlier →
        ∃ resized,
          resize_lanczos (Pillow := toy_pillow toy_encode) earlier (0, 5)
          = Ok resized.
Proof.
  apply (resize_failure (pillow := toy_pillow toy_encode)
           sample_animation (0, 5)).
  reflexivity.
Defined.

Lemma resize_script_saves_witness :
  ∃ first kwargs,
    Forall (fun frame => frame_size frame = (3, 3))
           (first :: png_append_images kwargs)
    ∧ length (first :: png_append_images kwargs)
      = length [sample_frame 10; sample_frame 20]
    ∧ png_duration kwargs = [duration_30fps; duration_30fps]
    ∧ length (png_duration kwargs)
      = length (first :: png_append_images kwargs)
    ∧ png_loop kwargs = default 0 (info_loop sample_image)
    ∧ resize_and_save (pillow := toy_pillow toy_encode) toy_png_encode
        sample_image 3 sample_output empty_world
      = match toy_png_encode first kwargs with
        | Saved content =>
            Past (Ok ())
              (with_fs empty_world
                 (<[sample_output := content]> (fs empty_world)))
        | SaveFailed e None => Past (Raise e) empty_world
        | SaveFailed e (Some partial) =>
            Past (Raise e)
              (with_fs empty_world
                 (<[sample_output := partial]> (fs empty_world)))
        end.
Proof.
  apply (resize_script_saves (pillow := toy_pillow toy_encode) toy_png_encode
           sample_image
           {| frames := [sample_frame 10; sample_frame 20];
              durations := [duration_30fps; duration_30fps]; loop := 0; size := (2, 2) |}
           3 sample_output empty_world).
  - reflexivity.
  - lia.
Defined.

Lemma save_animation_unpack_witness :
  save_animation toy_png_encode
    {| frames := []; durations := []; loop := 0; size := (3, 3) |}
    sample_output empty_world = UnpackError
  ↔ frames no_frames = [].
Proof.
  apply (save_animation_unpack (pillow := toy_pillow toy_encode) toy_png_encode
           no_frames (3, 3)).
  reflexivity.
Defined.

Lemma save_as_gif_reaches_encoder_witness :
  ∃ p_first rest,
    paletted_frames (pillow := toy_pillow toy_encode) single_frame 4 10
    = Ok (p_first :: rest)
    ∧ S (length rest) = length (frames single_frame)
    ∧ save_as_gif (pillow := toy_pillow toy_encode)
        single_frame sample_output 4 10 empty_world
      = match gif_encode (Pillow := toy_pillow toy_encode) p_first
                {| save_all := true;
                   append_images := rest;
                   duration := durations single_frame;
                   kw_loop := loop single_frame;
                   disposal := 2;
                   transparency := 4 - 1;
                   optimize := false |} with
        | Saved content =>
            (Ok (Py.len content),
             with_fs empty_world
               (<[sample_output := content]> (fs empty_world)))
        | SaveFailed e None => (Raise e, empty_world)
        | SaveFailed e (Some partial) =>
            (Raise e,
             with_fs empty_world
               (<[sample_output := partial]> (fs empty_world)))
        end.
Proof.
  apply (save_as_gif_reaches_encoder (pillow := toy_pillow toy_encode)
           single_frame sample_output 4 10 empty_world (sample_frame 10)).
  - lia.
  - reflexivity.
  - discriminate.
Defined.

Lemma rerun_keeps_storage_witness :
  ∃ w2,
    compress_to_target_size (pillow := toy_pillow toy_encode)
      single_frame sample_output 1000 10 2
      {| fs := {[sample_output := replicate 259 x00]};
         entered := [(1, 256)] |}
    = Some (Ok sample_output, w2)
    ∧ fs w2
      = fs {| fs := {[sample_output := replicate 259 x00]};
              entered := [(1, 256)] |}.
Proof.
  apply (rerun_keeps_storage (pillow := toy_pillow toy_encode)
           single_frame sample_output 1000 10 2 empty_world).
  vm_compute. reflexivity.
Defined.
